(** * Origin metadata cache (fs/dbmeta) and partial-file names (backend/hybridzfs)

    A shallow embedding of the item repository of [fs/dbmeta] — the table
    [item_list] with its unique index on [(parent_path, name)] and the
    operations [UpsertItem], [DeleteItem], [ModifyItem], [RenameItem],
    [GetItem], [GetAllItem] — and of [hybridzfs.IsPartialFile].

    Conventions of the embedding:
    - Go [string]s are byte strings: Rocq [string], one [ascii] per byte.
    - [int64]/[int32] columns are [Z]; no arithmetic is performed on them.
    - The store (GORM over SQLite) is a value of type [DB]: the rows of the
      table in the order the store scans them, and the errors the
      environment injects into the coming statements (I/O failure, expired
      context, ...).  Every statement returns the new store and its error,
      as a [gorm.DB] result does.
    - Readings of the clock are arguments of the operation that reads it.
    - The lock [rwLock] serialises the operations; they are modelled one at
      a time.

    What is taken from GORM and SQLite:
    - [Updates] with a map sets the columns of the map and no other;
    - [Create] fills a zero [CreatedAt] or [UpdatedAt] with the current
      time, and with [clause.OnConflict] updates the row holding the key
      with the given assignments instead of inserting;
    - a statement that would leave two rows with one [(parent_path, name)]
      fails with an error that starts with [UNIQUE constraint failed];
    - [Transaction] commits when its callback returns [nil] and rolls back
      otherwise;
    - [FindInBatches] needs a primary key to go past a full batch, and
      [Item] declares none. *)

From Stdlib Require Import ZArith Ascii String List Bool Lia.
From Stdlib.Strings Require Import Byte.
From stdpp Require Import base strings list gmap pretty.

(** ** Path splitting: [filepath.Split] on a Unix build *)

Module Filepath.

(** [os.IsPathSeparator]: the separator is the slash. *)
Definition IsPathSeparator (c : ascii) : bool := Ascii.eqb c "/".

(** The loop [for i >= 0 && !os.IsPathSeparator(path[i]) { i-- }], with the
    counter shifted by one: [scan_back path k] is the final [i + 1] when the
    loop is entered with [i = k - 1]. *)
Fixpoint scan_back (path : string) (k : nat) : nat :=
  match k with
  | O => O
  | S i =>
      match String.get i path with
      | Some c => if IsPathSeparator c then S i else scan_back path i
      | None => scan_back path i
      end
  end.

(** [return path[:i+1], path[i+1:]] *)
Definition Split (path : string) : string * string :=
  let n := scan_back path (String.length path) in
  (String.substring 0 n path,
   String.substring n (String.length path - n) path).

(** A string holds no separator. *)
Fixpoint no_separator (s : string) : bool :=
  match s with
  | EmptyString => true
  | String c s' => negb (IsPathSeparator c) && no_separator s'
  end.

(** A string is empty or its last byte is a separator. *)
Fixpoint ends_with_separator (s : string) : bool :=
  match s with
  | EmptyString => true
  | String c EmptyString => IsPathSeparator c
  | String _ s' => ends_with_separator s'
  end.

(** No separator at the positions [n ≤ j < k] of [p]. *)
Definition sep_free_from (p : string) (n k : nat) : Prop :=
  ∀ j c, n ≤ j < k → String.get j p = Some c → IsPathSeparator c = false.

End Filepath.

(** ** [strings.Contains] *)

Module Strings.

Fixpoint Contains (s substr : string) : bool :=
  String.prefix substr s
  || match s with
     | EmptyString => false
     | String _ s' => Contains s' substr
     end.

(** The last byte of a string. *)
Fixpoint last_byte (s : string) : option ascii :=
  match s with
  | EmptyString => None
  | String c EmptyString => Some c
  | String _ s' => last_byte s'
  end.

End Strings.

(** ** The data model of [fs/dbmeta] *)

Module Dbmeta.

Local Open Scope Z_scope.

(** Modelled from the spec: [fs.EntryType] and its constants are declared
    in package [fs]; the spec gives the column [type] as the enumeration
    {object, directory}. *)
Inductive EntryType := EntryDirectory | EntryObject.

#[global] Instance EntryType_eq_dec : EqDecision EntryType.
Proof. solve_decision. Defined.

(** [type Info struct]: the payload serialised in the column [info].
    Instants of time are seconds; [ranges.Ranges] is a list of
    (position, size) pairs. *)
Module Info.
Record t := {
  ModTime : Z;
  ATime : Z;
  Size : Z;
  Rs : list (Z * Z);
  Fingerprint : string;
  Dirty : bool
}.

(** The zero value of [var info Info]. *)
Definition zero : t :=
  {| ModTime := 0; ATime := 0; Size := 0; Rs := [];
     Fingerprint := EmptyString; Dirty := false |}.
End Info.

(** [type Item struct]: one row of [item_list]. *)
Record Item := {
  ParentPath : string;
  Name : string;
  Type_ : EntryType;
  Size : Z;
  State : Z;
  Sha1 : string;
  CreatedAt : Z;
  UpdatedAt : Z;
  Info : list byte
}.

#[global] Instance byte_eq_dec' : EqDecision byte := byte_eq_dec.

#[global] Instance Item_eq_dec : EqDecision Item.
Proof. solve_decision. Defined.

(** The zero value of [var item Item]. *)
Definition Item_zero : Item :=
  {| ParentPath := EmptyString; Name := EmptyString;
     Type_ := EntryDirectory; Size := 0; State := 0; Sha1 := EmptyString;
     CreatedAt := 0; UpdatedAt := 0; Info := [] |}.

(** The key of the unique index [idx_u_item]. *)
Definition key (r : Item) : string * string := (ParentPath r, Name r).

(** [const ( ErrorOfAlreadyExist ...; ErrorOfUniqueKeyExist ... )] *)
Definition ErrorOfAlreadyExist : string := "already exists".
Definition ErrorOfUniqueKeyExist : string := "UNIQUE constraint failed".

(** ** The store: GORM statements over the table [item_list] *)

(** A Go [error] is carried by its message ([Error()]); [None] is [nil]. *)
Definition error := option string.

Definition ErrRecordNotFound : string := "record not found".
Definition ErrPrimaryKeyRequired : string := "primary key required".
Definition ErrUniqueIndex : string :=
  "UNIQUE constraint failed: item_list.parent_path, item_list.name".
Definition ErrNoSuchColumn : string := "no such column".

(** The state of the backing store: the table in scan order, and for each
    coming statement the failure the environment makes it end with, if
    any.  A statement that fails leaves the table as it was. *)
Record DB := {
  rows : list Item;
  faults : list (option string)
}.

Definition next_fault (db : DB) : error * DB :=
  match faults db with
  | [] => (None, db)
  | f :: fs => (f, {| rows := rows db; faults := fs |})
  end.

Definition with_rows (db : DB) (l : list Item) : DB :=
  {| rows := l; faults := faults db |}.

(** The unique index [idx_u_item] over [(parent_path, name)]. *)
Definition unique_index (l : list Item) : bool :=
  bool_decide (NoDup (key <$> l)).

(** [Where("parent_path=? and name=?", dir, name)] *)
Definition where_key (dir name : string) (r : Item) : bool :=
  bool_decide (ParentPath r = dir) && bool_decide (Name r = name).

(** The values of a [map[string]interface{}] handed to [Updates] or to
    [clause.Assignments]. *)
Inductive Value :=
| VInt (z : Z)
| VText (s : string)
| VBlob (b : list byte)
| VType (t : EntryType).

(** A column of [item_list] takes a value of the Go type of its field;
    anything else, and any name that is no column, makes the statement
    fail. *)
Definition assignable (column : string) (v : Value) : bool :=
  match v with
  | VText _ =>
      bool_decide (column ∈ ["parent_path"; "name"; "sha1"])
  | VInt _ =>
      bool_decide (column ∈ ["size"; "state"; "created_at"; "updated_at"])
  | VBlob _ => bool_decide (column = "info")
  | VType _ => bool_decide (column = "type")
  end.

Definition assignments_ok (m : gmap string Value) : bool :=
  forallb (λ cv, assignable cv.1 cv.2) (map_to_list m).

Definition text_or (o : option Value) (d : string) : string :=
  match o with Some (VText s) => s | _ => d end.
Definition int_or (o : option Value) (d : Z) : Z :=
  match o with Some (VInt z) => z | _ => d end.
Definition blob_or (o : option Value) (d : list byte) : list byte :=
  match o with Some (VBlob b) => b | _ => d end.
Definition type_or (o : option Value) (d : EntryType) : EntryType :=
  match o with Some (VType t) => t | _ => d end.

(** [SET column = value, ...] on one row: the columns the map names take
    the map's values, the others keep theirs. *)
Definition assign (m : gmap string Value) (r : Item) : Item :=
  {| ParentPath := text_or (m !! "parent_path") (ParentPath r);
     Name := text_or (m !! "name") (Name r);
     Type_ := type_or (m !! "type") (Type_ r);
     Size := int_or (m !! "size") (Size r);
     State := int_or (m !! "state") (State r);
     Sha1 := text_or (m !! "sha1") (Sha1 r);
     CreatedAt := int_or (m !! "created_at") (CreatedAt r);
     UpdatedAt := int_or (m !! "updated_at") (UpdatedAt r);
     Info := blob_or (m !! "info") (Info r) |}.

Definition update_where (cond : Item → bool) (m : gmap string Value)
    (l : list Item) : list Item :=
  (λ r, if cond r then assign m r else r) <$> l.

(** [db.Table(...).Where(cond).Updates(m)].  The destination is a map, so
    no schema is parsed and no [updated_at] is added; an empty map issues
    no statement. *)
Definition Updates (cond : Item → bool) (m : gmap string Value)
    (db : DB) : error * DB :=
  if bool_decide (m = ∅) then (None, db)
  else
    let (f, db1) := next_fault db in
    match f with
    | Some e => (Some e, db1)
    | None =>
        if negb (assignments_ok m) then (Some ErrNoSuchColumn, db1)
        else
          let l := update_where cond m (rows db1) in
          if unique_index l then (None, with_rows db1 l)
          else (Some ErrUniqueIndex, db1)
    end.

(** [db.Table(...).Where(cond).Delete(&Item{})] *)
Definition Delete (cond : Item → bool) (db : DB) : error * DB :=
  let (f, db1) := next_fault db in
  match f with
  | Some e => (Some e, db1)
  | None => (None, with_rows db1 (filter (λ r, cond r = false) (rows db1)))
  end.

(** The row [Create(&item)] inserts: [autoCreateTime] and [autoUpdateTime]
    fill a zero [CreatedAt] and a zero [UpdatedAt] with the statement's
    time. *)
Definition created (curTime : Z) (item : Item) : Item :=
  {| ParentPath := ParentPath item;
     Name := Name item;
     Type_ := Type_ item;
     Size := Size item;
     State := State item;
     Sha1 := Sha1 item;
     CreatedAt := if bool_decide (CreatedAt item = 0) then curTime
                  else CreatedAt item;
     UpdatedAt := if bool_decide (UpdatedAt item = 0) then curTime
                  else UpdatedAt item;
     Info := Info item |}.

(** [db.Table(...).Clauses(clause.OnConflict{Columns: parent_path, name;
    DoUpdates: clause.Assignments(m)}).Create(&item)]:
    [INSERT ... ON CONFLICT (parent_path, name) DO UPDATE SET m]. *)
Definition CreateOnConflict (m : gmap string Value) (curTime : Z)
    (item : Item) (db : DB) : error * DB :=
  let (f, db1) := next_fault db in
  match f with
  | Some e => (Some e, db1)
  | None =>
      let hit := where_key (ParentPath item) (Name item) in
      if negb (assignments_ok m) then (Some ErrNoSuchColumn, db1)
      else if existsb hit (rows db1) then
        let l := update_where hit m (rows db1) in
        if unique_index l then (None, with_rows db1 l)
        else (Some ErrUniqueIndex, db1)
      else (None, with_rows db1 (rows db1 ++ [created curTime item]))
  end.

(** [db.Table(...).Where(cond).First(&item)]: the first matching row, or
    [ErrRecordNotFound] with [item] left at its zero value.  GORM sorts by
    [parent_path] here too; the rows a key selects share it. *)
Definition First (cond : Item → bool) (db : DB) : (Item * error) * DB :=
  let (f, db1) := next_fault db in
  match f with
  | Some e => ((Item_zero, Some e), db1)
  | None =>
      match List.find cond (rows db1) with
      | Some r => ((r, None), db1)
      | None => ((Item_zero, Some ErrRecordNotFound), db1)
      end
  end.

(** [db.Transaction(fc)]: the effects of [fc] are kept when it returns
    [nil] and undone when it returns an error. *)
Definition Transaction (fc : DB → error * DB) (db : DB) : error * DB :=
  let (err, tx) := fc db in
  match err with
  | Some e => (Some e, with_rows tx (rows db))
  | None => (None, tx)
  end.

Section Scan.

(** The order in which the store returns the rows of a scan that GORM
    sorts by the primary key; [Item] declares none, and GORM then names
    the first column, [parent_path].  Rows with equal [parent_path] come
    in an order of the store's choosing, so the order is left open. *)
Variable scan_order : list Item → list Item.

(** [Find(&dest)], with [Limit(n)] when [limit] is [Some n]. *)
Definition Find (limit : option nat) (db : DB)
    : (list Item * error) * DB :=
  let (f, db1) := next_fault db in
  match f with
  | Some e => (([], Some e), db1)
  | None =>
      let l := scan_order (rows db1) in
      ((match limit with Some n => take n l | None => l end, None), db1)
  end.

(** [FindInBatches(&dest, batchSize, fc)] on a model without primary
    key.  GORM's loop reads one batch, calls [fc] on it when it is not
    empty, stops when the batch is short, and otherwise asks for the
    rows whose primary key exceeds the last one read: with
    [PrioritizedPrimaryField == nil] it records [ErrPrimaryKeyRequired]
    and stops there.  [fc] works on the caller's variables, here a state
    of type [S]. *)
Definition FindInBatches {S : Type} (batchSize : nat)
    (fc : list Item → nat → S → S * error) (s : S) (db : DB)
    : (S * error) * DB :=
  let '((dest, err), db1) := Find (Some batchSize) db in
  match err with
  | Some e => ((s, Some e), db1)
  | None =>
      let '(s1, ferr) :=
        if bool_decide (length dest = 0%nat) then (s, None)
        else fc dest 1%nat s in
      match ferr with
      | Some e => ((s1, Some e), db1)
      | None =>
          if bool_decide (length dest < batchSize)%nat
          then ((s1, None), db1)
          else ((s1, Some ErrPrimaryKeyRequired), db1)
      end
  end.

(** [func (oc *OriginCache) GetAllItem(ctx) ([]Item, error)] *)
Definition GetAllItem (db : DB) : (list Item * error) * DB :=
  FindInBatches 1000
    (λ TempList _ allList, (allList ++ TempList, None)) [] db.

End Scan.

(** ** The item repository *)

Section Repository.

(** [json.Unmarshal(data, &info)] into a zero [Info]: the decoded
    payload, or the decoder's error. *)
Variable Unmarshal : list byte → Info.t + string.

(** The head of [UpsertItem]: [var info Info], decoded from [item.Info]
    when [item.Type == fs.EntryObject] and left zero otherwise. *)
Definition decodeInfo (item : Item) : Info.t + string :=
  if bool_decide (Type_ item = EntryObject)
  then Unmarshal (Info item)
  else inl Info.zero.

(** The map of [clause.Assignments] in [UpsertItem]. *)
Definition upsert_assignments (now : Z) (info : Info.t) (item : Item)
    : gmap string Value :=
  {[ "updated_at" := VInt now;
     "sha1" := VText (Info.Fingerprint info);
     "size" := VInt (Info.Size info);
     "info" := VBlob (Info item) ]}.

(** [func (oc *OriginCache) UpsertItem(ctx, item Item) error].
    [now] is [time.Now().Unix()] of the assignments, [curTime] the time
    GORM stamps on an inserted row. *)
Definition UpsertItem (now curTime : Z) (item : Item) (db : DB)
    : error * DB :=
  match decodeInfo item with
  | inr err => (Some err, db)
  | inl info =>
      CreateOnConflict (upsert_assignments now info item) curTime item db
  end.

(** [func (oc *OriginCache) DeleteItem(ctx, name string) error] *)
Definition DeleteItem (name : string) (db : DB) : error * DB :=
  let (parentDir, itemName) := Filepath.Split name in
  Delete (where_key parentDir itemName) db.

(** [func (oc *OriginCache) ModifyItem(ctx, name, infoMap) error] *)
Definition ModifyItem (name : string) (infoMap : gmap string Value)
    (db : DB) : error * DB :=
  let (parentDir, itemName) := Filepath.Split name in
  Updates (where_key parentDir itemName) infoMap db.

(** The map of both [Updates] calls in [RenameItem]. *)
Definition rename_assignments (newParentDir newItemName : string)
    : gmap string Value :=
  {[ "parent_path" := VText newParentDir;
     "name" := VText newItemName ]}.

(** [func (oc *OriginCache) RenameItem(ctx, oldName, newName) error].
    In the transaction, a failed update returns [rd.Error], the error of
    the delete before it, which is [nil] at that point. *)
Definition RenameItem (oldName newName : string) (db : DB)
    : error * DB :=
  let (oldParentDir, oldItemName) := Filepath.Split oldName in
  let (newParentDir, newItemName) := Filepath.Split newName in
  let (result, db1) :=
    Updates (where_key oldParentDir oldItemName)
      (rename_assignments newParentDir newItemName) db in
  match result with
  | Some e =>
      if Strings.Contains e ErrorOfUniqueKeyExist then
        Transaction (λ tx,
          let (rd, tx1) :=
            Delete (where_key newParentDir newItemName) tx in
          match rd with
          | Some _ => (rd, tx1)
          | None =>
              let (ru, tx2) :=
                Updates (where_key oldParentDir oldItemName)
                  (rename_assignments newParentDir newItemName) tx1 in
              match ru with
              | Some _ => (rd, tx2)
              | None => (None, tx2)
              end
          end) db1
      else (Some e, db1)
  | None => (None, db1)
  end.

(** [func (oc *OriginCache) GetItem(ctx, name string) (Item, error)] *)
Definition GetItem (name : string) (db : DB) : (Item * error) * DB :=
  let (parentDir, itemName) := Filepath.Split name in
  First (where_key parentDir itemName) db.

End Repository.

(** ** Query filters *)

(** The part of a [*gorm.DB] the filters build: the conditions of the
    statement, each an SQL text with its bound arguments. *)
Record Statement := {
  table : string;
  conds : list (string * list Value)
}.

(** [db.Where(query, args...)] *)
Definition Where (query : string) (args : list Value) (db : Statement)
    : Statement :=
  {| table := table db; conds := conds db ++ [(query, args)] |}.

(** [fmt.Sprintf("name %s ?", operator)] *)
Definition Sprintf_name (operator : string) : string :=
  "name " +:+ operator +:+ " ?".

(** [func (oc *OriginCache) FilterName(name, operator string)] *)
Definition FilterName (name operator : string) : Statement → Statement :=
  λ db, Where (Sprintf_name operator) [VText name] db.

(** [func (oc *OriginCache) FilterParentPath(path, operator string)] *)
Definition FilterParentPath (path operator : string)
    : Statement → Statement :=
  λ db, Where (Sprintf_name operator) [VText path] db.

(** [db.Scopes(filterList...)] applies the filters in turn. *)
Definition Scopes (filterList : list (Statement → Statement))
    (db : Statement) : Statement :=
  fold_left (λ d f, f d) filterList db.

(** [func (oc *OriginCache) basicFilter(filterList ...)] *)
Definition basicFilter (oc_db : Statement)
    (filterList : list (Statement → Statement)) : Statement :=
  if bool_decide (length filterList = 0%nat) then oc_db
  else Scopes filterList oc_db.

(** ** What a rename can leave of a table *)

(** The tables [RenameItem] can end with, whatever its outcome: the table
    as it was, the row at the old key moved, the row at the new key
    deleted, or both. *)
Inductive renamed (od on nd nn : string) (l : list Item)
    : list Item → Prop :=
| renamed_none : renamed od on nd nn l l
| renamed_direct :
    renamed od on nd nn l
      (update_where (where_key od on) (rename_assignments nd nn) l)
| renamed_deleted :
    renamed od on nd nn l (filter (λ r, where_key nd nn r = false) l)
| renamed_replaced :
    renamed od on nd nn l
      (update_where (where_key od on) (rename_assignments nd nn)
         (filter (λ r, where_key nd nn r = false) l)).

(** ** Sample data *)

Module Sample.

(** The bytes of a JSON text written with ['] for the double quote. *)
Definition json (text : string) : list byte :=
  (λ b, if bool_decide (b = x27) then x22 else b)
    <$> String.list_byte_of_string text.

Definition doc_f1 : list byte := json "{'Size':10,'Fingerprint':'f1'}".
Definition doc_f2 : list byte := json "{'Size':20,'Fingerprint':'f2'}".

(** A decoder for the samples: it knows the documents used below and
    rejects every other blob. *)

Definition Unmarshal (data : list byte) : Info.t + string :=
  if bool_decide (data = doc_f1) then
    inl {| Info.ModTime := 0; Info.ATime := 0; Info.Size := 10;
           Info.Rs := []; Info.Fingerprint := "f1";
           Info.Dirty := false |}
  else if bool_decide (data = doc_f2) then
    inl {| Info.ModTime := 0; Info.ATime := 0; Info.Size := 20;
           Info.Rs := []; Info.Fingerprint := "f2";
           Info.Dirty := false |}
  else if bool_decide (data = json "null") then
    inl Info.zero
  else inr "invalid character".

(** The store returns a scan in table order. *)
Definition scan_order (l : list Item) : list Item := l.

Definition file_b : Item :=
  {| ParentPath := "/a/"; Name := "b.txt"; Type_ := EntryObject;
     Size := 10; State := 0; Sha1 := "f1"; CreatedAt := 1000;
     UpdatedAt := 1000; Info := json "null" |}.

Definition file_c : Item :=
  {| ParentPath := "/a/"; Name := "c.txt"; Type_ := EntryObject;
     Size := 30; State := 0; Sha1 := "f3"; CreatedAt := 1001;
     UpdatedAt := 1002; Info := json "null" |}.

Definition dir_d : Item :=
  {| ParentPath := "/a/"; Name := "d"; Type_ := EntryDirectory;
     Size := 7; State := 0; Sha1 := "old"; CreatedAt := 1003;
     UpdatedAt := 1003; Info := [] |}.


(** A first observation of [/a/b.txt], with its payload. *)
Definition file_b_first : Item :=
  {| ParentPath := "/a/"; Name := "b.txt"; Type_ := EntryObject;
     Size := 10; State := 0; Sha1 := "f1"; CreatedAt := 0;
     UpdatedAt := 0; Info := doc_f1 |}.

(** A first observation of [/a/c.txt]. *)
Definition file_c_first : Item :=
  {| ParentPath := "/a/"; Name := "c.txt"; Type_ := EntryObject;
     Size := 20; State := 0; Sha1 := "f2"; CreatedAt := 0;
     UpdatedAt := 0; Info := doc_f2 |}.

Definition empty_db : DB := {| rows := []; faults := [] |}.

(** A second observation of [/a/b.txt], with a payload. *)
Definition file_b_again : Item :=
  {| ParentPath := "/a/"; Name := "b.txt"; Type_ := EntryObject;
     Size := 20; State := 0; Sha1 := "f2"; CreatedAt := 0;
     UpdatedAt := 0; Info := doc_f2 |}.


(** An object entry whose payload is not JSON. *)
Definition file_broken : Item :=
  {| ParentPath := "/a/"; Name := "e.txt"; Type_ := EntryObject;
     Size := 1; State := 0; Sha1 := "f5"; CreatedAt := 0;
     UpdatedAt := 0; Info := json "{" |}.

Definition db3 : DB :=
  {| rows := [file_b; file_c; dir_d]; faults := [] |}.


End Sample.

End Dbmeta.

(** ** Regular expressions: the part of Go's [regexp] that [IsPartialFile]
    uses *)

Module Regexp.

(** Expressions over bytes.  Go matches runes of UTF-8; every construct
    used below is either an ASCII byte or the class of all runes but the
    newline, and a run of such runes is a run of bytes other than the
    newline byte, so the match is the same byte by byte. *)
Inductive regex :=
| Void
| Eps
| Class (f : ascii → bool)
| Cat (r1 r2 : regex)
| Alt (r1 r2 : regex)
| Star (r : regex).

Fixpoint nullable (r : regex) : bool :=
  match r with
  | Void => false
  | Eps => true
  | Class _ => false
  | Cat r1 r2 => nullable r1 && nullable r2
  | Alt r1 r2 => nullable r1 || nullable r2
  | Star _ => true
  end.

(** The derivative of [r] by the byte [c]. *)
Fixpoint deriv (c : ascii) (r : regex) : regex :=
  match r with
  | Void => Void
  | Eps => Void
  | Class f => if f c then Eps else Void
  | Cat r1 r2 =>
      if nullable r1 then Alt (Cat (deriv c r1) r2) (deriv c r2)
      else Cat (deriv c r1) r2
  | Alt r1 r2 => Alt (deriv c r1) (deriv c r2)
  | Star r1 => Cat (deriv c r1) (Star r1)
  end.

(** [r] matches the whole of [s]. *)
Fixpoint matches (r : regex) (s : string) : bool :=
  match s with
  | EmptyString => nullable r
  | String c s' => matches (deriv c r) s'
  end.

(** The strings an expression denotes; [matches] decides it. *)
Inductive lang : regex → string → Prop :=
| lang_Eps : lang Eps EmptyString
| lang_Class f c : f c = true → lang (Class f) (String c EmptyString)
| lang_Cat r1 r2 s1 s2 :
    lang r1 s1 → lang r2 s2 → lang (Cat r1 r2) (s1 +:+ s2)
| lang_Alt_l r1 r2 s : lang r1 s → lang (Alt r1 r2) s
| lang_Alt_r r1 r2 s : lang r2 s → lang (Alt r1 r2) s
| lang_Star_nil r : lang (Star r) EmptyString
| lang_Star_app r s1 s2 :
    lang r s1 → lang (Star r) s2 → lang (Star r) (s1 +:+ s2).

(** Every byte of a string satisfies [f]. *)
Fixpoint all_bytes (f : ascii → bool) (s : string) : bool :=
  match s with
  | EmptyString => true
  | String c s' => f c && all_bytes f s'
  end.

(** [.] without the flag [s]: any character but the newline. *)
Definition not_newline (c : ascii) : bool := negb (Ascii.eqb c "010").
Definition Dot : regex := Class not_newline.

(** A literal byte, as [\.] or [p]. *)
Definition Byte (b : ascii) : regex := Class (Ascii.eqb b).

(** A literal string. *)
Fixpoint Lit (s : string) : regex :=
  match s with
  | EmptyString => Eps
  | String c s' => Cat (Byte c) (Lit s')
  end.

(** [r{n}] *)
Fixpoint Repeat (n : nat) (r : regex) : regex :=
  match n with
  | O => Eps
  | S n' => Cat r (Repeat n' r)
  end.

(** A range [lo-hi] of a bracket expression. *)
Definition in_range (lo hi c : ascii) : bool :=
  (N_of_ascii lo <=? N_of_ascii c)%N && (N_of_ascii c <=? N_of_ascii hi)%N.

(** A parsed pattern: whether it starts with [^], its body, whether it
    ends with [$] (without the flag [m] these are the ends of the text). *)
Record pattern := {
  begin_text : bool;
  body : regex;
  end_text : bool
}.

Definition Any : regex := Star (Class (λ _, true)).

(** [regexp.MatchString(pattern, s)]: whether some part of [s] matches;
    the error is that of compiling the pattern, none for a parsed one. *)
Definition MatchString (p : pattern) (s : string) : bool * option string :=
  (matches
     (Cat (if begin_text p then Eps else Any)
          (Cat (body p) (if end_text p then Eps else Any))) s,
   None).

End Regexp.

(** ** [backend/hybridzfs]: names of partial files *)

Module Hybridzfs.

Import Regexp.

(** [a-f0-9] *)
Definition hex_lower (c : ascii) : bool :=
  in_range "a" "f" c || in_range "0" "9" c.

(** [patten := "^.*\\.[a-f0-9]{8}\\.partial$"] *)
Definition patten : pattern :=
  {| begin_text := true;
     body := Cat (Star Dot)
               (Cat (Byte ".")
                  (Cat (Repeat 8 (Class hex_lower)) (Lit ".partial")));
     end_text := true |}.

(** [func IsPartialFile(name string) bool] *)
Definition IsPartialFile (name : string) : bool :=
  let (isMatch, err) := MatchString patten name in
  match err with
  | Some _ => false
  | None => isMatch
  end.

(** The names the pattern is described to accept: any prefix, a dot,
    eight bytes of [a-f0-9], and [.partial] ending the name. *)
Definition described_shape (name : string) : Prop :=
  ∃ prefix h : string,
    name = prefix +:+ "." +:+ h +:+ ".partial" ∧
    String.length h = 8 ∧ all_bytes hex_lower h = true.

(** The name of [Test_IsPartialFile]. *)
Definition test_name : string := "新建 文本文档.txt.efe454dd.partial1".

(** A name whose prefix spans two lines. *)
Definition two_line_name : string :=
  "a" +:+ String "010" "b.efe454dd.partial".

End Hybridzfs.

(** ** [fs/dbmeta]: the schema, and the delete of all rows *)

Module OriginCache.

Import Dbmeta.
Local Open Scope Z_scope.

(** The backing file as the schema statements see it: whether the table
    [item_list] and its index [idx_u_item] exist, and the store.  A file
    without the table has no index. *)
Record Backing := {
  has_table : bool;
  has_index : bool;
  store : DB
}.

Definition ErrIndexExists : string := "index idx_u_item already exists".
Definition ErrNoSuchTable : string := "no such table: main.item_list".
Definition ErrMissingWhereClause : string := "WHERE conditions required".

(** [oc.db.Exec("CREATE TABLE IF NOT EXISTS `item_list` (...)")]: a table
    that exists is left as it is, a new one is empty. *)
Definition ExecCreateTable (b : Backing) : error * Backing :=
  let (f, db1) := next_fault (store b) in
  match f with
  | Some e =>
      (Some e,
       {| has_table := has_table b; has_index := has_index b;
          store := db1 |})
  | None =>
      if has_table b then
        (None,
         {| has_table := true; has_index := has_index b; store := db1 |})
      else
        (None,
         {| has_table := true; has_index := false;
            store := with_rows db1 [] |})
  end.

(** [oc.db.Exec("CREATE UNIQUE INDEX idx_u_item ON item_list
    (parent_path, name)")]: refused when the table does not exist, when the
    index does, and when two rows of the table share a key. *)
Definition ExecCreateIndex (b : Backing) : error * Backing :=
  let (f, db1) := next_fault (store b) in
  let same :=
    {| has_table := has_table b; has_index := has_index b; store := db1 |} in
  match f with
  | Some e => (Some e, same)
  | None =>
      if negb (has_table b) then (Some ErrNoSuchTable, same)
      else if has_index b then (Some ErrIndexExists, same)
      else if unique_index (rows db1) then
        (None, {| has_table := true; has_index := true; store := db1 |})
      else (Some ErrUniqueIndex, same)
  end.

(** [func (oc *OriginCache) createTable() error] *)
Definition createTable (b : Backing) : error * Backing :=
  let (result, b1) := ExecCreateTable b in
  match result with
  | Some e => (Some e, b1)
  | None =>
      let (result', b2) := ExecCreateIndex b1 in
      match result' with
      | Some e =>
          if Strings.Contains e ErrorOfAlreadyExist then (None, b2)
          else (Some e, b2)
      | None => (None, b2)
      end
  end.

(** [db.Table(...).Where(conds...).Delete(&Item{})] in general.  [Item] has
    no primary key, so the statement has the conditions of the caller and
    no other; without any, GORM adds [ErrMissingWhereClause] before a
    statement is issued, unless [AllowGlobalUpdate] is set. *)
Definition DeleteWhere (AllowGlobalUpdate : bool)
    (conds : list (Item → bool)) (db : DB) : error * DB :=
  match conds with
  | [] =>
      if AllowGlobalUpdate then Delete (λ _, true) db
      else (Some ErrMissingWhereClause, db)
  | _ => Delete (λ r, forallb (λ c, c r) conds) db
  end.

(** The [gorm.Config] of [OpenDB] sets the logger only. *)
Definition AllowGlobalUpdate : bool := false.

(** [func (oc *OriginCache) DeleteAllItem(ctx) error] *)
Definition DeleteAllItem (db : DB) : error * DB :=
  DeleteWhere AllowGlobalUpdate [] db.

End OriginCache.

(** ** [fs/dbmeta/trace.go]: the trace of a statement *)

Module Trace.

Import Dbmeta.
Local Open Scope Z_scope.








Section After.

(** [db.Dialector.Explain(sql, vars...)] *)
Variable Explain : string → list Value → string.

(** [utils.FileWithLineNum()], the place of the call. *)
Variable FileWithLineNum : string.


End After.

End Trace.

(** ** [backend/hybridzfs/fs.go]: the file system over the local one *)

Module Hvfs.

Local Open Scope Z_scope.

(** The bits of [os.FileMode] that tell the type of a file. *)
Definition ModeDir : Z := 2 ^ 31.
Definition ModeSymlink : Z := 2 ^ 27.
Definition ModeDevice : Z := 2 ^ 26.
Definition ModeNamedPipe : Z := 2 ^ 25.
Definition ModeSocket : Z := 2 ^ 24.
Definition ModeCharDevice : Z := 2 ^ 21.
Definition ModeIrregular : Z := 2 ^ 19.

(** [os.ModeType] *)
Definition ModeType : Z :=
  Z.lor ModeDir
    (Z.lor ModeSymlink
       (Z.lor ModeNamedPipe
          (Z.lor ModeSocket
             (Z.lor ModeDevice (Z.lor ModeCharDevice ModeIrregular))))).

(** [mode.IsRegular()] *)
Definition IsRegular (mode : Z) : bool := Z.land mode ModeType =? 0.

(** [type Options struct] *)
Record Options := {
  FollowSymlinks : bool;
  TranslateSymlinks : bool;
  SkipSymlinks : bool;
  UTFNorm : bool;
  NoCheckUpdated : bool;
  NoUNC : bool;
  OneFileSystem : bool;
  CaseSensitive : bool;
  CaseInsensitive : bool;
  NoPreAllocate : bool;
  NoSparse : bool;
  NoSetModTime : bool;
  TimeType : Z;
  Enc : Z;
  NoClone : bool
}.

(** [const linkSuffix] *)
Definition linkSuffix : string := ".rclonelink".

(** [const devUnset = 0xdeadbeefcafebabf] *)
Definition devUnset : Z := 16045690984503098047.

(** The errors [NewFs] tells apart: its own two, [fs.ErrorIsFile], and the
    errors of the calls it makes, by their message. *)
Inductive FsError :=
| errLinksAndCopyLinks
| errLinksNeedsSuffix
| ErrorIsFile
| OtherError (msg : string).

(** [strings.HasSuffix] *)
Definition HasSuffix (s suffix : string) : bool :=
  (String.length suffix <=? String.length s)%nat
  && String.eqb
       (String.substring (String.length s - String.length suffix)
          (String.length suffix) s)
       suffix.

(** [strings.TrimSuffix] *)
Definition TrimSuffix (s suffix : string) : string :=
  if HasSuffix s suffix
  then String.substring 0 (String.length s - String.length suffix) s
  else s.

(** [func (f *Hvfs) caseInsensitive() bool], with [runtime.GOOS]. *)
Definition caseInsensitive (GOOS : string) (opt : Options) : bool :=
  if CaseSensitive opt then false
  else if CaseInsensitive opt then true
  else String.eqb GOOS "windows" || String.eqb GOOS "darwin".

(** [func (f *Hvfs) isRegular(mode os.FileMode) bool] *)
Definition isRegular (opt : Options) (mode : Z) : bool :=
  if negb (TranslateSymlinks opt) then IsRegular mode
  else Z.ldiff (Z.land mode ModeType) ModeSymlink =? 0.

(** [func readDevice(fi os.FileInfo, oneFileSystem bool) uint64] *)
Definition readDevice (mode : Z) (oneFileSystem : bool) : Z := devUnset.

(** What [os.Lstat] and [os.Stat] return: the mode of the file, an error
    for which [os.IsNotExist] holds, or another error. *)
Inductive StatResult :=
| StatOk (mode : Z)
| StatNotExist
| StatFailed (msg : string).

(** The fields of [fs.Features] that [NewFs] sets by value. *)
Record Features := {
  FeatCaseInsensitive : bool;
  FeatCanHaveEmptyDirectories : bool;
  FeatIsLocal : bool;
  FeatSlowHash : bool;
  FeatReadMetadata : bool;
  FeatWriteMetadata : bool;
  FeatReadDirMetadata : bool;
  FeatWriteDirMetadata : bool;
  FeatWriteDirSetModTime : bool;
  FeatUserDirMetadata : bool;
  FeatDirModTimeUpdatesOnWrite : bool;
  FeatUserMetadata : bool;
  FeatFilterAware : bool;
  FeatPartialUploads : bool
}.

Section NewFs.

(** [configmap.Mapper] and the file system [local.NewFs] builds. *)
Variable Mapper : Type.
Variable LocalFs : Type.

(** [type Hvfs struct]: the fields [NewFs] sets.  [lstat_follows] tells
    which function [f.lstat] is: [os.Stat] when set, [os.Lstat] when not. *)
Record Hvfs := {
  name : string;
  root : string;
  opt : Options;
  features : Features;
  dev : Z;
  xattrSupported : Z;
  lstat_follows : bool;
  localFs : option LocalFs
}.

(** The platform: [runtime.GOOS] and [xattr.XATTR_SUPPORTED]. *)
Variable GOOS : string.
Variable XATTR_SUPPORTED : bool.

(** [configstruct.Set(m, opt)]: the options read, or an error. *)
Variable configstruct_Set : Mapper → Options + string.

(** [local.NewFs(ctx, name, root, m)]: a file system, an error, or both. *)
Variable local_NewFs :
  string → string → Mapper → option LocalFs * option FsError.

(** [local.CleanRootPath(root, noUNC, enc)] and [filepath.Dir]. *)
Variable CleanRootPath : string → bool → Z → string.
Variable Dir : string → string.

(** [os.Lstat] and [os.Stat] on the file system of the call. *)
Variable Lstat : string → StatResult.
Variable Stat : string → StatResult.

(** [func NewFs(ctx, name, root string, m configmap.Mapper) (fs.Fs, error)];
    the function pointers that [Fill] sets in the features are left out. *)
Definition NewFs (name_ root_ : string) (m : Mapper)
    : option Hvfs * option FsError :=
  match configstruct_Set m with
  | inr err => (None, Some (OtherError err))
  | inl opt_ =>
      if TranslateSymlinks opt_ && FollowSymlinks opt_
      then (None, Some errLinksAndCopyLinks)
      else
        let (localFs_, err) := local_NewFs name_ root_ m in
        match err with
        | Some e => (None, Some e)
        | None =>
            let f_root := CleanRootPath root_ (NoUNC opt_) (Enc opt_) in
            let f_lstat := if FollowSymlinks opt_ then Stat else Lstat in
            let fi := f_lstat f_root in
            let f_dev :=
              match fi with
              | StatOk mode => readDevice mode (OneFileSystem opt_)
              | _ => devUnset
              end in
            let f := {|
              name := name_;
              root := f_root;
              opt := opt_;
              features := {|
                FeatCaseInsensitive := caseInsensitive GOOS opt_;
                FeatCanHaveEmptyDirectories := true;
                FeatIsLocal := true;
                FeatSlowHash := true;
                FeatReadMetadata := true;
                FeatWriteMetadata := true;
                FeatReadDirMetadata := true;
                FeatWriteDirMetadata := true;
                FeatWriteDirSetModTime := true;
                FeatUserDirMetadata := XATTR_SUPPORTED;
                FeatDirModTimeUpdatesOnWrite := true;
                FeatUserMetadata := XATTR_SUPPORTED;
                FeatFilterAware := true;
                FeatPartialUploads := true |};
              dev := f_dev;
              xattrSupported := if XATTR_SUPPORTED then 1 else 0;
              lstat_follows := FollowSymlinks opt_;
              localFs := localFs_ |} in
            let hasLinkSuffix := HasSuffix f_root linkSuffix in
            let fi' :=
              if hasLinkSuffix && TranslateSymlinks opt_
                 && match fi with StatNotExist => true | _ => false end
              then f_lstat (TrimSuffix f_root linkSuffix)
              else fi in
            match fi' with
            | StatOk mode =>
                if isRegular opt_ mode then
                  if negb hasLinkSuffix && TranslateSymlinks opt_
                     && negb (Z.land mode ModeSymlink =? 0)
                  then (None, Some errLinksNeedsSuffix)
                  else
                    (Some {|
                       name := name f;
                       root := Dir (root f);
                       opt := opt f;
                       features := features f;
                       dev := dev f;
                       xattrSupported := xattrSupported f;
                       lstat_follows := lstat_follows f;
                       localFs := localFs f |},
                     Some ErrorIsFile)
                else (Some f, None)
            | _ => (Some f, None)
            end
        end
  end.

End NewFs.

Arguments name {LocalFs} h.
Arguments root {LocalFs} h.
Arguments opt {LocalFs} h.
Arguments features {LocalFs} h.
Arguments dev {LocalFs} h.
Arguments xattrSupported {LocalFs} h.
Arguments lstat_follows {LocalFs} h.
Arguments localFs {LocalFs} h.

End Hvfs.

(** ** More sample data *)

Module Cases.

Import Dbmeta.
Local Open Scope Z_scope.

(** The [i]-th file of the directory [/big/]. *)
Definition numbered (i : nat) : Item :=
  {| ParentPath := "/big/"; Name := pretty i; Type_ := EntryDirectory;
     Size := 0; State := 0; Sha1 := EmptyString; CreatedAt := 1;
     UpdatedAt := 1; Info := [] |}.

(** A table of [n] rows. *)
Definition table_of (n : nat) : DB :=
  {| rows := numbered <$> seq 0 n; faults := [] |}.

(** The table of the samples in a store whose next statement fails. *)
Definition db3_down : DB :=
  {| rows := rows Sample.db3; faults := [Some "database is locked"] |}.

(** An entry whose parent path lacks the separator at its end. *)
Definition loose_b : Item :=
  {| ParentPath := "/a"; Name := "b.txt"; Type_ := EntryObject;
     Size := 10; State := 0; Sha1 := "f1"; CreatedAt := 0;
     UpdatedAt := 0; Info := Sample.doc_f1 |}.

(** A backing file without table, one with the table of the samples and
    no index, and one whose table holds [/a/b.txt] twice. *)
Definition fresh_file : OriginCache.Backing :=
  {| OriginCache.has_table := false; OriginCache.has_index := false;
     OriginCache.store := Sample.empty_db |}.

Definition unindexed_file : OriginCache.Backing :=
  {| OriginCache.has_table := true; OriginCache.has_index := false;
     OriginCache.store := Sample.db3 |}.

Definition doubled_file : OriginCache.Backing :=
  {| OriginCache.has_table := true; OriginCache.has_index := false;
     OriginCache.store :=
       {| rows := [Sample.file_b; Sample.file_b_again]; faults := [] |} |}.


(** A directory [/data] with a file, a link and nothing else. *)
Definition Lstat (p : string) : Hvfs.StatResult :=
  if String.eqb p "/data" then Hvfs.StatOk (Z.lor Hvfs.ModeDir 493)
  else if String.eqb p "/data/file" then Hvfs.StatOk 420
  else if String.eqb p "/data/link"
  then Hvfs.StatOk (Z.lor Hvfs.ModeSymlink 511)
  else Hvfs.StatNotExist.

(** [os.Stat] follows the link, which points to the file. *)
Definition Stat (p : string) : Hvfs.StatResult :=
  if String.eqb p "/data/link" then Hvfs.StatOk 420 else Lstat p.

(** The options with every flag off, and those of [-l]. *)
Definition plain : Hvfs.Options :=
  {| Hvfs.FollowSymlinks := false; Hvfs.TranslateSymlinks := false;
     Hvfs.SkipSymlinks := false; Hvfs.UTFNorm := false;
     Hvfs.NoCheckUpdated := false; Hvfs.NoUNC := false;
     Hvfs.OneFileSystem := false; Hvfs.CaseSensitive := false;
     Hvfs.CaseInsensitive := false; Hvfs.NoPreAllocate := false;
     Hvfs.NoSparse := false; Hvfs.NoSetModTime := false;
     Hvfs.TimeType := 0; Hvfs.Enc := 0; Hvfs.NoClone := false |}.


(** [NewFs] on that directory tree: the mapper is the options it yields,
    the local file system is built without error, root paths are clean
    already, and the parent of a path is its part before the last
    separator. *)
Definition Dir (p : string) : string :=
  let d := (Filepath.Split p).1 in
  String.substring 0 (String.length d - 1) d.


End Cases.

(** ** Lists of filters *)

Module Filters.

Import Dbmeta.

(** A filter of the package, by the function that builds it: whether it is
    [FilterParentPath] or [FilterName], its value and its operator. *)
Definition filter_of (f : bool * string * string)
    : Statement → Statement :=
  let '(on_parent_path, value, operator) := f in
  if on_parent_path : bool then FilterParentPath value operator
  else FilterName value operator.

(** The condition [name <operator> ?] bound to the value. *)
Definition cond_of (f : bool * string * string)
    : string * list Value :=
  let '(_, value, operator) := f in
  ("name " +:+ operator +:+ " ?", [VText value]).

End Filters.

(** * Facts *)

(** ** Strings *)

Module StringFacts.

Lemma app_String (c : ascii) (s t : string) :
  String c s +:+ t = String c (s +:+ t).
Proof. reflexivity. Qed.

Lemma app_empty_l (s : string) : EmptyString +:+ s = s.
Proof. reflexivity. Qed.

Lemma app_empty_r (s : string) : s +:+ EmptyString = s.
Proof. induction s as [|c s IH]; [done|]. by rewrite app_String, IH. Qed.

Lemma app_eq_empty (s t : string) :
  s +:+ t = EmptyString → s = EmptyString ∧ t = EmptyString.
Proof. destruct s; [done|]. rewrite app_String. done. Qed.

Lemma app_eq_String (s t u : string) (c : ascii) :
  s +:+ t = String c u →
  (s = EmptyString ∧ t = String c u) ∨
  (∃ s', s = String c s' ∧ u = s' +:+ t).
Proof.
  destruct s as [|a s]; [by left|]. rewrite app_String. intros [= -> <-].
  right. by exists s.
Qed.

Lemma length_app (a b : string) :
  String.length (a +:+ b) = String.length a + String.length b.
Proof.
  induction a as [|x a IH]; [done|]. rewrite app_String. simpl.
  by rewrite IH.
Qed.

Lemma app_inj_length (a b c e : string) :
  a +:+ b = c +:+ e → String.length a = String.length c → a = c ∧ b = e.
Proof.
  revert c. induction a as [|x a IH]; intros [|y c] Heq Hlen;
    simpl in Hlen; try lia.
  - done.
  - rewrite !app_String in Heq. injection Heq as -> Heq.
    destruct (IH c Heq) as [-> ->]; [lia | done].
Qed.

Lemma substring_whole (p : string) :
  String.substring 0 (String.length p) p = p.
Proof. induction p; simpl; [done|]. by f_equal. Qed.

Lemma substring_split (p : string) (n : nat) :
  n ≤ String.length p →
  String.substring 0 n p +:+ String.substring n (String.length p - n) p = p.
Proof.
  revert n. induction p as [|c p IH]; intros [|n] Hn; cbn in *;
    try lia; try done.
  - rewrite app_empty_l. f_equal. apply substring_whole.
  - rewrite app_String. f_equal. apply IH. lia.
Qed.

Lemma length_substring (p : string) (n m : nat) :
  n + m ≤ String.length p → String.length (String.substring n m p) = m.
Proof.
  revert n m. induction p as [|c p IH]; intros [|n] [|m] H; simpl in *;
    try lia; try done.
  - f_equal. apply (IH 0). lia.
  - apply IH. lia.
  - apply IH. lia.
Qed.

Lemma get_length (s : string) (j : nat) :
  String.length s ≤ j → String.get j s = None.
Proof.
  revert j. induction s as [|c s IH]; intros [|j] H; simpl in *;
    try lia; try done.
  apply IH. lia.
Qed.

Lemma last_byte_app (a b : string) :
  b ≠ EmptyString → Strings.last_byte (a +:+ b) = Strings.last_byte b.
Proof.
  intros Hb. induction a as [|c a IH]; [done|].
  rewrite app_String. simpl. rewrite IH.
  destruct (a +:+ b) eqn:Hab; [|done].
  apply app_eq_empty in Hab as [_ ?]. done.
Qed.

End StringFacts.

(** ** [filepath.Split] *)

Module FilepathFacts.

Import Filepath StringFacts.

(** The invariant of the loop: it stops just after a separator, or at the
    start of the path, and has passed none. *)
Lemma scan_back_spec (p : string) (k : nat) :
  let n := scan_back p k in
  n ≤ k ∧
  (n = 0 ∨
   0 < n ∧ ∃ c, String.get (n - 1) p = Some c ∧ IsPathSeparator c = true) ∧
  sep_free_from p n k.
Proof.
  induction k as [|k IH]; simpl.
  - split; [lia|]. split; [by left|]. intros j c ?; lia.
  - destruct (String.get k p) as [c|] eqn:Hg.
    + destruct (IsPathSeparator c) eqn:Hc.
      * split; [lia|]. split.
        -- right. split; [lia|]. exists c.
           by replace (S k - 1) with k by lia.
        -- intros j c' ?; lia.
      * destruct IH as (Hle & Hat & Hfree). split; [lia|]. split; [done|].
        intros j c' Hj Hg'. destruct (decide (j = k)) as [->|].
        -- congruence.
        -- apply (Hfree j c'); [lia | done].
    + destruct IH as (Hle & Hat & Hfree). split; [lia|]. split; [done|].
      intros j c' Hj Hg'. destruct (decide (j = k)) as [->|].
      -- congruence.
      -- apply (Hfree j c'); [lia | done].
Qed.

Lemma scan_back_le (p : string) (k : nat) : scan_back p k ≤ k.
Proof. apply scan_back_spec. Qed.

Lemma no_separator_get (s : string) :
  no_separator s = true ↔
  ∀ j c, String.get j s = Some c → IsPathSeparator c = false.
Proof.
  induction s as [|a s IH]; simpl.
  - split; [intros _ j c H; destruct j; done | done].
  - rewrite andb_true_iff, negb_true_iff, IH. split.
    + intros [Ha Hs] [|j] c H; simpl in H; [congruence | eauto].
    + intros H. split;
        [apply (H 0); done | intros j c Hj; apply (H (S j)); done].
Qed.

Lemma ends_with_separator_get (s : string) :
  ends_with_separator s = true ↔
  s = EmptyString ∨
  ∃ c, String.get (String.length s - 1) s = Some c ∧
       IsPathSeparator c = true.
Proof.
  induction s as [|a s IH]; simpl.
  - split; [by left | done].
  - destruct s as [|b s].
    + simpl. split.
      * intros H. right. by exists a.
      * intros [?|(c & Hc & ?)]; [done | congruence].
    + rewrite IH. simpl.
      replace (String.length s - 0) with (String.length s) by lia.
      split.
      * intros [?|H]; [done | by right].
      * intros [?|H]; [done | by right].
Qed.

(** The two parts make up the path. *)
Lemma Split_app (p : string) : (Split p).1 +:+ (Split p).2 = p.
Proof. unfold Split; simpl. apply substring_split, scan_back_le. Qed.

(** The name is what follows the last separator. *)
Lemma Split_name_no_separator (p : string) :
  no_separator (Split p).2 = true.
Proof.
  unfold Split; simpl. apply no_separator_get. intros j c Hg.
  pose proof (scan_back_spec p (String.length p)) as (Hle & _ & Hfree).
  set (n := scan_back p (String.length p)) in *.
  assert (j < String.length p - n) as Hj.
  { destruct (decide (j < String.length p - n)) as [|Hn]; [done|].
    rewrite substring_correct2 in Hg; [done | lia]. }
  rewrite substring_correct1 in Hg by done.
  apply (Hfree (j + n) c); [lia | done].
Qed.

(** The directory keeps its separator. *)
Lemma Split_dir_ends_with_separator (p : string) :
  ends_with_separator (Split p).1 = true.
Proof.
  unfold Split; simpl. apply ends_with_separator_get.
  pose proof (scan_back_spec p (String.length p)) as (Hle & Hat & _).
  set (n := scan_back p (String.length p)) in *.
  destruct Hat as [->|(Hn0 & c & Hc & Hsep)].
  - left. by destruct p.
  - right. exists c. split; [|done].
    rewrite (length_substring p 0 n) by lia.
    rewrite substring_correct1 by lia.
    by replace (n - 1 + 0) with (n - 1) by lia.
Qed.

(** A directory with its separator and a name without one are what their
    concatenation splits into. *)
Lemma Split_unique (d n : string) :
  ends_with_separator d = true → no_separator n = true →
  Split (d +:+ n) = (d, n).
Proof.
  intros Hd Hn.
  pose proof (Split_app (d +:+ n)) as Happ.
  assert (String.length (Split (d +:+ n)).1 = String.length d) as Hlen.
  { unfold Split; simpl.
    pose proof (scan_back_spec (d +:+ n) (String.length (d +:+ n)))
      as (Hle & Hat & Hfree).
    set (n0 := scan_back (d +:+ n) (String.length (d +:+ n))) in *.
    rewrite (length_substring _ 0 n0) by lia.
    rewrite length_app in Hle, Hfree.
    destruct (Nat.lt_trichotomy n0 (String.length d)) as [Hlt|[Heq|Hgt]];
      [exfalso | done | exfalso].
    - apply ends_with_separator_get in Hd as [->|(c & Hc & Hsep)];
        [simpl in Hlt; lia|].
      rewrite (append_correct1 d n) in Hc by lia.
      rewrite (Hfree (String.length d - 1) c) in Hsep;
        [done | lia | done].
    - destruct Hat as [?|(_ & c & Hc & Hsep)]; [lia|].
      replace (n0 - 1) with ((n0 - 1 - String.length d) + String.length d)
        in Hc by lia.
      rewrite <- append_correct2 in Hc.
      rewrite (proj1 (no_separator_get n) Hn _ c Hc) in Hsep. done. }
  destruct (Split (d +:+ n)) as [d' n']; simpl in *.
  destruct (app_inj_length _ _ _ _ Happ Hlen) as [-> ->]. done.
Qed.

End FilepathFacts.

(** ** The matcher decides the language *)

Module RegexpFacts.

Import Regexp StringFacts.

Lemma lang_Eps_inv (s : string) : lang Eps s → s = EmptyString.
Proof. by inversion 1. Qed.

Lemma lang_Class_inv (f : ascii → bool) (s : string) :
  lang (Class f) s → ∃ c, s = String c EmptyString ∧ f c = true.
Proof. inversion 1; subst; eauto. Qed.

Lemma lang_Cat_inv (r1 r2 : regex) (s : string) :
  lang (Cat r1 r2) s → ∃ s1 s2, s = s1 +:+ s2 ∧ lang r1 s1 ∧ lang r2 s2.
Proof. inversion 1; subst; eauto. Qed.

Lemma lang_Alt_inv (r1 r2 : regex) (s : string) :
  lang (Alt r1 r2) s → lang r1 s ∨ lang r2 s.
Proof. inversion 1; subst; eauto. Qed.

Lemma nullable_lang (r : regex) : nullable r = true ↔ lang r EmptyString.
Proof.
  induction r as [| |f|r1 IH1 r2 IH2|r1 IH1 r2 IH2|r IH]; simpl.
  - split; [done | inversion 1].
  - split; [constructor | done].
  - split; [done | inversion 1].
  - rewrite andb_true_iff, IH1, IH2. split.
    + intros [H1 H2]. apply (lang_Cat _ _ EmptyString EmptyString); done.
    + intros (s1 & s2 & Heq & H1 & H2)%lang_Cat_inv.
      symmetry in Heq. apply app_eq_empty in Heq as [-> ->]. done.
  - rewrite orb_true_iff, IH1, IH2. split.
    + intros [H|H]; [by apply lang_Alt_l | by apply lang_Alt_r].
    + intros [H|H]%lang_Alt_inv; [by left | by right].
  - split; [constructor | done].
Qed.

(** A non-empty string of a star starts with a non-empty string of its
    body. *)
Lemma lang_Star_String (r : regex) (c : ascii) (s : string) :
  lang (Star r) (String c s) →
  ∃ s1 s2, s = s1 +:+ s2 ∧ lang r (String c s1) ∧ lang (Star r) s2.
Proof.
  intros H. remember (Star r) as r' eqn:Hr.
  remember (String c s) as t eqn:Ht.
  revert s Ht. induction H as [| | | | | |r0 s1 s2 H1 _ H2 IH2]; try done.
  injection Hr as ->. intros s Ht.
  apply app_eq_String in Ht as [[-> ->]|(s' & -> & ->)].
  - by apply IH2.
  - by exists s', s2.
Qed.

Lemma deriv_lang (r : regex) (c : ascii) (s : string) :
  lang (deriv c r) s ↔ lang r (String c s).
Proof.
  revert s.
  induction r as [| |f|r1 IH1 r2 IH2|r1 IH1 r2 IH2|r IH]; intros s; simpl.
  - split; inversion 1.
  - split; inversion 1.
  - destruct (f c) eqn:Hf; split.
    + intros ->%lang_Eps_inv. by constructor.
    + intros (c' & [= <- ->] & _)%lang_Class_inv. constructor.
    + inversion 1.
    + intros (c' & [= <- ->] & ?)%lang_Class_inv. congruence.
  - assert (lang (Cat (deriv c r1) r2) s ↔
            ∃ s1 s2, s = s1 +:+ s2 ∧ lang r1 (String c s1) ∧ lang r2 s2)
      as Hcat.
    { split.
      - intros (s1 & s2 & -> & H1 & H2)%lang_Cat_inv.
        exists s1, s2. split; [done|]. split; [by apply IH1 | done].
      - intros (s1 & s2 & -> & H1 & H2). constructor; [by apply IH1 | done]. }
    assert (lang (Cat r1 r2) (String c s) ↔
            (lang r1 EmptyString ∧ lang r2 (String c s)) ∨
            ∃ s1 s2, s = s1 +:+ s2 ∧ lang r1 (String c s1) ∧ lang r2 s2)
      as Hsplit.
    { split.
      - intros (s1 & s2 & Heq & H1 & H2)%lang_Cat_inv. symmetry in Heq.
        apply app_eq_String in Heq as [[-> ->]|(s' & -> & ->)].
        + by left.
        + right. by exists s', s2.
      - intros [[H1 H2]|(s1 & s2 & -> & H1 & H2)].
        + rewrite <- (app_empty_l (String c s)). by constructor.
        + rewrite <- app_String. by constructor. }
    rewrite Hsplit. destruct (nullable r1) eqn:Hn.
    + apply nullable_lang in Hn. split.
      * intros [H|H]%lang_Alt_inv.
        -- right. by apply Hcat.
        -- left. split; [done | by apply IH2].
      * intros [[_ H2]|H].
        -- apply lang_Alt_r. by apply IH2.
        -- apply lang_Alt_l. by apply Hcat.
    + rewrite Hcat. split; [by right|]. intros [[H1 _]|H]; [|done].
      apply nullable_lang in H1. congruence.
  - split.
    + intros [H|H]%lang_Alt_inv; [apply lang_Alt_l | apply lang_Alt_r];
        [by apply IH1 | by apply IH2].
    + intros [H|H]%lang_Alt_inv; [apply lang_Alt_l | apply lang_Alt_r];
        [by apply IH1 | by apply IH2].
  - split.
    + intros (s1 & s2 & -> & H1 & H2)%lang_Cat_inv.
      rewrite <- app_String. constructor; [by apply IH | done].
    + intros (s1 & s2 & -> & H1 & H2)%lang_Star_String.
      constructor; [by apply IH | done].
Qed.

Lemma matches_lang (r : regex) (s : string) :
  matches r s = true ↔ lang r s.
Proof.
  revert r. induction s as [|c s IH]; intros r; simpl.
  - apply nullable_lang.
  - rewrite IH. apply deriv_lang.
Qed.

Lemma lang_Star_Class (f : ascii → bool) (s : string) :
  lang (Star (Class f)) s ↔ all_bytes f s = true.
Proof.
  split.
  - intros H. remember (Star (Class f)) as r eqn:Hr.
    induction H as [| | | | | |r0 s1 s2 H1 _ H2 IH2]; try done.
    injection Hr as ->. apply lang_Class_inv in H1 as (c & -> & Hc).
    rewrite app_String. simpl. rewrite Hc. by apply IH2.
  - induction s as [|c s IH]; simpl; [constructor|].
    intros [Hc Hs]%andb_true_iff.
    change (String c s) with (String c EmptyString +:+ s).
    constructor; [by constructor | by apply IH].
Qed.

Lemma lang_Byte (b : ascii) (s : string) :
  lang (Byte b) s ↔ s = String b EmptyString.
Proof.
  unfold Byte. split.
  - intros (c & -> & Hc)%lang_Class_inv. apply Ascii.eqb_eq in Hc.
    by subst.
  - intros ->. constructor. apply Ascii.eqb_refl.
Qed.

Lemma lang_Lit (t s : string) : lang (Lit t) s ↔ s = t.
Proof.
  revert s. induction t as [|c t IH]; intros s; simpl.
  - split; [apply lang_Eps_inv | intros ->; constructor].
  - split.
    + intros (s1 & s2 & -> & H1 & H2)%lang_Cat_inv.
      apply lang_Byte in H1 as ->. apply IH in H2 as ->. done.
    + intros ->. change (String c t) with (String c EmptyString +:+ t).
      constructor; [by apply lang_Byte | by apply IH].
Qed.

Lemma lang_Repeat_Class (n : nat) (f : ascii → bool) (s : string) :
  lang (Repeat n (Class f)) s ↔
  String.length s = n ∧ all_bytes f s = true.
Proof.
  revert s. induction n as [|n IH]; intros s; simpl.
  - split.
    + by intros ->%lang_Eps_inv.
    + intros [Hl _]. destruct s; [constructor | done].
  - split.
    + intros (s1 & s2 & -> & (c & -> & Hc)%lang_Class_inv & H2)%lang_Cat_inv.
      apply IH in H2 as [<- H2]. rewrite app_String. simpl. by rewrite Hc.
    + intros [Hl Hs]. destruct s as [|c s]; [done|]. simpl in *.
      apply andb_true_iff in Hs as [Hc Hs].
      change (String c s) with (String c EmptyString +:+ s).
      constructor; [by constructor|]. apply IH. split; [lia | done].
Qed.

(** With both anchors, [MatchString] is a match of the whole string. *)
Lemma IsPartialFile_lang (name : string) :
  Hybridzfs.IsPartialFile name = true ↔ lang (body Hybridzfs.patten) name.
Proof.
  unfold Hybridzfs.IsPartialFile, MatchString. simpl.
  rewrite matches_lang. split.
  - intros (s1 & s2 & -> & ->%lang_Eps_inv & H)%lang_Cat_inv.
    apply lang_Cat_inv in H as (s3 & s4 & -> & H & ->%lang_Eps_inv).
    by rewrite app_empty_r.
  - intros H. rewrite <- (app_empty_r name).
    change (name +:+ EmptyString)
      with (EmptyString +:+ name +:+ EmptyString).
    constructor; [constructor|]. constructor; [done | constructor].
Qed.

(** The names [IsPartialFile] accepts. *)
Lemma IsPartialFile_spec (name : string) :
  Hybridzfs.IsPartialFile name = true ↔
  ∃ prefix h : string,
    name = prefix +:+ "." +:+ h +:+ ".partial" ∧
    all_bytes not_newline prefix = true ∧
    String.length h = 8 ∧ all_bytes Hybridzfs.hex_lower h = true.
Proof.
  rewrite IsPartialFile_lang.
  change (body Hybridzfs.patten) with
    (Cat (Star Dot)
       (Cat (Byte ".")
          (Cat (Repeat 8 (Class Hybridzfs.hex_lower)) (Lit ".partial")))).
  split.
  - intros (pre & s1 & -> & Hpre & H)%lang_Cat_inv.
    apply lang_Cat_inv in H as (dot & s2 & -> & ->%lang_Byte & H).
    apply lang_Cat_inv in H as (h & suf & -> & Hh & ->%lang_Lit).
    apply lang_Star_Class in Hpre.
    apply (lang_Repeat_Class 8) in Hh as [Hlen Hh].
    by exists pre, h.
  - intros (pre & h & -> & Hpre & Hlen & Hh).
    constructor; [by apply lang_Star_Class|].
    change ("." +:+ h +:+ ".partial") with
      (String "." EmptyString +:+ (h +:+ ".partial")).
    constructor; [by apply lang_Byte|].
    constructor; [by apply (lang_Repeat_Class 8) | by apply lang_Lit].
Qed.

(** A name that goes on after [.partial] with a [1] is refused. *)
Lemma IsPartialFile_partial1 (s : string) :
  Hybridzfs.IsPartialFile (s +:+ ".partial1") = false.
Proof.
  apply not_true_iff_false. intros (pre & h & Heq & _)%IsPartialFile_spec.
  apply (f_equal Strings.last_byte) in Heq.
  rewrite last_byte_app in Heq by done.
  rewrite (last_byte_app pre) in Heq by done.
  change ("." +:+ h +:+ ".partial")
    with (String "." (h +:+ ".partial")) in Heq.
  change (Strings.last_byte (String "." (h +:+ ".partial"))) with
    (match h +:+ ".partial" with
     | EmptyString => Some "."%char
     | _ => Strings.last_byte (h +:+ ".partial")
     end) in Heq.
  destruct (h +:+ ".partial") eqn:Hh.
  - by apply app_eq_empty in Hh as [_ ?].
  - rewrite <- Hh, last_byte_app in Heq by done. done.
Qed.

End RegexpFacts.

(** ** The store *)

Module StoreFacts.

Import Dbmeta.
Local Open Scope Z_scope.

Lemma where_key_true d n r : where_key d n r = true ↔ key r = (d, n).
Proof.
  unfold where_key, key. rewrite andb_true_iff, !bool_decide_eq_true.
  split; [by intros [-> ->] | by intros [= -> ->]].
Qed.

Lemma where_key_false d n r : where_key d n r = false ↔ key r ≠ (d, n).
Proof. rewrite <- where_key_true. by destruct (where_key d n r). Qed.

Lemma unique_index_true l : unique_index l = true ↔ NoDup (key <$> l).
Proof. unfold unique_index. apply bool_decide_eq_true. Qed.

(** *** Assignments *)

Lemma assign_upsert now info item r :
  assign (upsert_assignments now info item) r =
  {| ParentPath := ParentPath r; Name := Name r; Type_ := Type_ r;
     Size := Info.Size info; State := State r;
     Sha1 := Info.Fingerprint info; CreatedAt := CreatedAt r;
     UpdatedAt := now; Info := Info item |}.
Proof. reflexivity. Qed.

Lemma assign_rename d n r :
  assign (rename_assignments d n) r =
  {| ParentPath := d; Name := n; Type_ := Type_ r; Size := Size r;
     State := State r; Sha1 := Sha1 r; CreatedAt := CreatedAt r;
     UpdatedAt := UpdatedAt r; Info := Info r |}.
Proof. reflexivity. Qed.

Lemma key_assign_rename d n r :
  key (assign (rename_assignments d n) r) = (d, n).
Proof. reflexivity. Qed.

Lemma rename_assignments_nonempty d n :
  bool_decide (rename_assignments d n = ∅) = false.
Proof.
  apply bool_decide_eq_false. intros H.
  assert (rename_assignments d n !! "name" = None) as H'
    by (by rewrite H).
  done.
Qed.

Lemma assign_empty r : assign ∅ r = r.
Proof. by destruct r. Qed.

Lemma update_where_empty cond l : update_where cond ∅ l = l.
Proof.
  unfold update_where. induction l as [|r l IH]; [done|].
  rewrite fmap_cons, IH, assign_empty. by destruct (cond r).
Qed.

Lemma update_where_lookup cond m l (i : nat) :
  update_where cond m l !! i =
  (λ r, if cond r then assign m r else r) <$> (l !! i).
Proof. unfold update_where. apply list_lookup_fmap. Qed.

Lemma elem_of_update_where cond m l r' :
  r' ∈ update_where cond m l ↔
  ∃ r, r ∈ l ∧ r' = if cond r then assign m r else r.
Proof.
  unfold update_where. rewrite list_elem_of_fmap. split.
  - intros (r & -> & Hr). by exists r.
  - intros (r & Hr & ->). by exists r.
Qed.

Lemma update_where_id cond m l :
  (∀ r, r ∈ l → cond r = false) → update_where cond m l = l.
Proof.
  intros H. unfold update_where. induction l as [|r l IH]; [done|].
  rewrite fmap_cons, IH.
  - rewrite (H r); [done | by left].
  - intros r' Hr'. apply H. by right.
Qed.

(** *** Searching the table *)




Lemma find_none (cond : Item → bool) l :
  (∀ r, r ∈ l → cond r = false) → List.find cond l = None.
Proof.
  induction l as [|r l IH]; intros H; [done|]. simpl.
  rewrite (H r) by (by left). apply IH. intros r' Hr'. apply H. by right.
Qed.

Lemma find_some_elem (cond : Item → bool) l r :
  List.find cond l = Some r → r ∈ l ∧ cond r = true.
Proof.
  intros [H1 H2]%find_some. split; [by apply list_elem_of_In | done].
Qed.

Lemma filter_none (P : Item → Prop) `{∀ x, Decision (P x)} l :
  (∀ x, x ∈ l → ¬ P x) → filter P l = [].
Proof.
  induction l as [|x l IH]; intros Hl; [done|].
  rewrite filter_cons_False by (apply Hl; by left).
  apply IH. intros y Hy. apply Hl. by right.
Qed.

(** Under the unique index a key selects one row. *)
Lemma filter_key_unique l r :
  NoDup (key <$> l) → r ∈ l → filter (λ x, key x = key r) l = [r].
Proof.
  induction l as [|x l IH]; intros Hnd Hr; [by apply elem_of_nil in Hr|].
  rewrite fmap_cons in Hnd. apply NoDup_cons in Hnd as [Hx Hnd].
  apply elem_of_cons in Hr as [->|Hr].
  - rewrite filter_cons_True by done. f_equal.
    apply filter_none. intros y Hy Hk. apply Hx.
    apply list_elem_of_fmap. by exists y.
  - rewrite filter_cons_False; [by apply IH|].
    intros Hk. apply Hx. rewrite Hk. apply list_elem_of_fmap. by exists r.
Qed.

(** *** What a statement leaves of the table *)

Lemma next_fault_rows db : rows (next_fault db).2 = rows db.
Proof. unfold next_fault. by destruct (faults db). Qed.

Lemma next_fault_nil db : faults db = [] → next_fault db = (None, db).
Proof. unfold next_fault. by intros ->. Qed.

Lemma Updates_inv cond m db db' :
  Updates cond m db = (None, db') →
  rows db' = update_where cond m (rows db).
Proof.
  unfold Updates. case_bool_decide as Hm.
  - intros [= <-]. subst m. by rewrite update_where_empty.
  - pose proof (next_fault_rows db) as Hr.
    destruct (next_fault db) as [[e|] db1]; simpl in *; [done|].
    destruct (assignments_ok m); simpl; [|done].
    destruct (unique_index _); [|done].
    intros [= <-]. simpl. by rewrite Hr.
Qed.

Lemma Updates_rows cond m db err db' :
  Updates cond m db = (err, db') →
  rows db' = match err with
             | None => update_where cond m (rows db)
             | Some _ => rows db
             end.
Proof.
  destruct err as [e|]; [|apply Updates_inv].
  unfold Updates. case_bool_decide as Hm; [done|].
  pose proof (next_fault_rows db) as Hr.
  destruct (next_fault db) as [[e'|] db1]; simpl in *;
    [by intros [= _ <-]|].
  destruct (assignments_ok m); simpl; [|by intros [= _ <-]].
  destruct (unique_index _); [done | by intros [= _ <-]].
Qed.

Lemma Delete_inv cond db db' :
  Delete cond db = (None, db') →
  rows db' = filter (λ r, cond r = false) (rows db).
Proof.
  unfold Delete. pose proof (next_fault_rows db) as Hr.
  destruct (next_fault db) as [[e|] db1]; simpl in *; [done|].
  intros [= <-]. simpl. by rewrite Hr.
Qed.

Lemma Delete_rows cond db err db' :
  Delete cond db = (err, db') →
  rows db' = match err with
             | None => filter (λ r, cond r = false) (rows db)
             | Some _ => rows db
             end.
Proof.
  destruct err as [e|]; [|apply Delete_inv].
  unfold Delete. pose proof (next_fault_rows db) as Hr.
  destruct (next_fault db) as [[e'|] db1]; simpl in *;
    [by intros [= _ <-] | done].
Qed.

Lemma CreateOnConflict_inv m t item db db' :
  CreateOnConflict m t item db = (None, db') →
  rows db' =
    if existsb (where_key (ParentPath item) (Name item)) (rows db)
    then update_where (where_key (ParentPath item) (Name item)) m (rows db)
    else rows db ++ [created t item].
Proof.
  unfold CreateOnConflict. pose proof (next_fault_rows db) as Hr.
  destruct (next_fault db) as [[e|] db1]; simpl in *; [done|].
  destruct (assignments_ok m); simpl; [|done]. rewrite Hr.
  destruct (existsb _ _).
  - destruct (unique_index _); [|done]. by intros [= <-].
  - by intros [= <-].
Qed.

Lemma First_no_fault cond db :
  faults db = [] →
  First cond db =
    (match List.find cond (rows db) with
     | Some r => (r, None)
     | None => (Item_zero, Some ErrRecordNotFound)
     end, db).
Proof.
  intros Hf. unfold First. rewrite (next_fault_nil db Hf).
  by destruct (List.find cond (rows db)).
Qed.

Lemma Delete_no_fault cond db :
  faults db = [] →
  Delete cond db =
    (None, with_rows db (filter (λ r, cond r = false) (rows db))).
Proof. intros Hf. unfold Delete. by rewrite (next_fault_nil _ Hf). Qed.

Lemma Updates_rename_no_fault cond d n db :
  faults db = [] →
  Updates cond (rename_assignments d n) db =
    if unique_index (update_where cond (rename_assignments d n) (rows db))
    then (None, with_rows db
                  (update_where cond (rename_assignments d n) (rows db)))
    else (Some ErrUniqueIndex, db).
Proof.
  intros Hf. unfold Updates.
  rewrite rename_assignments_nonempty, (next_fault_nil _ Hf). done.
Qed.




Lemma update_where_same_key d n l :
  update_where (where_key d n) (rename_assignments d n) l = l.
Proof.
  unfold update_where. induction l as [|r l IH]; [done|].
  rewrite fmap_cons, IH. f_equal.
  destruct (where_key d n r) eqn:Hk; [|done].
  apply where_key_true in Hk. rewrite assign_rename.
  destruct r; unfold key in Hk; simpl in *. by injection Hk as -> ->.
Qed.

(** *** The unique index under a rename *)

(** Moving the row at [(od, on)] to a key no row has keeps the index
    unique. *)
Lemma unique_after_rename od on nd nn l :
  NoDup (key <$> l) →
  (∀ r, r ∈ l → key r ≠ (nd, nn)) →
  NoDup (key <$>
         update_where (where_key od on) (rename_assignments nd nn) l).
Proof.
  induction l as [|r l IH]; intros Hnd Hfree; [constructor|].
  rewrite fmap_cons in Hnd. apply NoDup_cons in Hnd as [Hr Hnd].
  unfold update_where. rewrite !fmap_cons.
  fold (update_where (where_key od on) (rename_assignments nd nn) l).
  destruct (where_key od on r) eqn:Hk.
  - apply where_key_true in Hk.
    rewrite update_where_id.
    + apply NoDup_cons. split; [|done]. rewrite key_assign_rename.
      intros (r' & Hk' & Hr')%list_elem_of_fmap.
      apply (Hfree r'); [by right | done].
    + intros r' Hr'. apply where_key_false. intros Hk'. apply Hr.
      apply list_elem_of_fmap. exists r'. split; [congruence | done].
  - apply NoDup_cons. split.
    + intros (r' & Hk' & Hr')%list_elem_of_fmap.
      apply elem_of_update_where in Hr' as (r0 & Hr0 & ->).
      destruct (where_key od on r0).
      * rewrite key_assign_rename in Hk'.
        apply (Hfree r); [by left | done].
      * apply Hr. apply list_elem_of_fmap. by exists r0.
    + apply IH; [done|]. intros r' Hr'. apply Hfree. by right.
Qed.

(** With a row at each of two keys, moving one onto the other breaks the
    index. *)
Lemma conflict_after_rename od on nd nn l r1 r2 :
  r1 ∈ l → key r1 = (od, on) → r2 ∈ l → key r2 = (nd, nn) →
  (od, on) ≠ (nd, nn) →
  ¬ NoDup (key <$>
           update_where (where_key od on) (rename_assignments nd nn) l).
Proof.
  intros (i & Hi)%list_elem_of_lookup Hk1 (j & Hj)%list_elem_of_lookup
    Hk2 Hne Hnd.
  assert (i ≠ j) as Hij by (intros ->; congruence).
  apply Hij. eapply (NoDup_lookup _ i j (nd, nn)); [done | |].
  - rewrite list_lookup_fmap, update_where_lookup, Hi. simpl.
    apply where_key_true in Hk1. by rewrite Hk1.
  - rewrite list_lookup_fmap, update_where_lookup, Hj. simpl.
    assert (where_key od on r2 = false) as ->.
    { apply where_key_false. congruence. }
    simpl. by rewrite Hk2.
Qed.

Lemma filter_new_after_rename od on nd nn (l : list Item) :
  (∀ r, r ∈ l → key r ≠ (nd, nn)) →
  filter (λ x, key x = (nd, nn))
    (update_where (where_key od on) (rename_assignments nd nn) l) =
  assign (rename_assignments nd nn) <$> filter (λ x, key x = (od, on)) l.
Proof.
  induction l as [|r l IH]; intros Hfree; [done|].
  unfold update_where. rewrite fmap_cons.
  fold (update_where (where_key od on) (rename_assignments nd nn) l).
  assert (∀ r0, r0 ∈ l → key r0 ≠ (nd, nn)) as Hl
    by (intros r0 Hr0; apply Hfree; by right).
  destruct (where_key od on r) eqn:Hk.
  - apply where_key_true in Hk.
    rewrite filter_cons_True by done.
    rewrite (filter_cons_True _ r) by done.
    rewrite fmap_cons. f_equal. by apply IH.
  - apply where_key_false in Hk.
    rewrite filter_cons_False by (apply Hfree; by left).
    rewrite (filter_cons_False _ r) by done. by apply IH.
Qed.

Lemma filter_old_after_delete od on nd nn (l : list Item) :
  (od, on) ≠ (nd, nn) →
  filter (λ x, key x = (od, on))
    (filter (λ r, where_key nd nn r = false) l) =
  filter (λ x, key x = (od, on)) l.
Proof.
  intros Hne. induction l as [|r l IH]; [done|].
  destruct (decide (key r = (od, on))) as [Hk|Hk].
  - rewrite (filter_cons_True (λ r, where_key nd nn r = false)).
    + rewrite !filter_cons_True by done. by f_equal.
    + apply where_key_false. congruence.
  - rewrite (filter_cons_False _ r l Hk).
    destruct (where_key nd nn r) eqn:Hn.
    + rewrite filter_cons_False by (by rewrite Hn). done.
    + rewrite filter_cons_True by done. by rewrite filter_cons_False.
Qed.

End StoreFacts.

(** ** The repository *)

Module RepositoryFacts.

Import Dbmeta StoreFacts.
Local Open Scope Z_scope.

(** A successful upsert has decoded the payload and has either updated the
    rows at the entry's key or appended the entry. *)
Lemma UpsertItem_inv Unmarshal now curTime item db db' :
  UpsertItem Unmarshal now curTime item db = (None, db') →
  ∃ info, decodeInfo Unmarshal item = inl info ∧
  rows db' =
    if existsb (where_key (ParentPath item) (Name item)) (rows db)
    then update_where (where_key (ParentPath item) (Name item))
           (upsert_assignments now info item) (rows db)
    else rows db ++ [created curTime item].
Proof.
  unfold UpsertItem.
  destruct (decodeInfo Unmarshal item) as [info|e]; [|done].
  intros H. exists info. split; [done|]. by apply CreateOnConflict_inv in H.
Qed.

Lemma ModifyItem_lookup name m db db' (i : nat) r :
  ModifyItem name m db = (None, db') → rows db !! i = Some r →
  rows db' !! i =
    Some (if bool_decide (key r = Filepath.Split name)
          then assign m r else r).
Proof.
  unfold ModifyItem. destruct (Filepath.Split name) as [d n].
  intros Hu%Updates_inv Hi. rewrite Hu, update_where_lookup, Hi. simpl.
  f_equal. destruct (where_key d n r) eqn:Hk.
  - apply where_key_true in Hk. by rewrite bool_decide_eq_true_2.
  - apply where_key_false in Hk. by rewrite bool_decide_eq_false_2.
Qed.

Lemma DeleteItem_elem name db db' r :
  DeleteItem name db = (None, db') →
  r ∈ rows db' ↔ r ∈ rows db ∧ key r ≠ Filepath.Split name.
Proof.
  unfold DeleteItem. destruct (Filepath.Split name) as [d n].
  intros ->%Delete_inv. rewrite list_elem_of_filter, where_key_false. tauto.
Qed.

Lemma GetItem_found name db r db' :
  GetItem name db = ((r, None), db') →
  r ∈ rows db ∧ key r = Filepath.Split name.
Proof.
  unfold GetItem, First. destruct (Filepath.Split name) as [d n].
  pose proof (next_fault_rows db) as Hr.
  destruct (next_fault db) as [[e|] db1]; simpl in *; [done|].
  destruct (List.find _ _) as [r0|] eqn:Hfind; [|done].
  intros [= <- _]. apply find_some_elem in Hfind as [Hin Hk].
  rewrite <- Hr. split; [done | by apply where_key_true].
Qed.


(** *** Rename *)

Lemma RenameItem_rows oldName newName db err db' :
  RenameItem oldName newName db = (err, db') →
  renamed (Filepath.Split oldName).1 (Filepath.Split oldName).2
          (Filepath.Split newName).1 (Filepath.Split newName).2
          (rows db) (rows db').
Proof.
  unfold RenameItem.
  destruct (Filepath.Split oldName) as [od on].
  destruct (Filepath.Split newName) as [nd nn]. simpl.
  destruct (Updates _ _ db) as [[e|] db1] eqn:Hu; apply Updates_rows in Hu.
  - destruct (Strings.Contains e ErrorOfUniqueKeyExist).
    + unfold Transaction.
      destruct (Delete _ db1) as [[e1|] tx1] eqn:Hd;
        apply Delete_rows in Hd.
      * intros [= _ <-]. simpl. rewrite Hu. constructor.
      * destruct (Updates _ _ tx1) as [[e2|] tx2] eqn:Hu2;
          apply Updates_rows in Hu2; intros [= _ <-];
          rewrite Hu2, Hd, Hu; constructor.
    + intros [= _ <-]. rewrite Hu. constructor.
  - intros [= _ <-]. rewrite Hu. constructor.
Qed.

(** Every row of a renamed table is a row of the table before, as it was or
    moved from the old key to the new one. *)
Lemma renamed_elem od on nd nn l l' r' :
  renamed od on nd nn l l' → r' ∈ l' →
  ∃ r, r ∈ l ∧
    (r' = r ∨
     key r = (od, on) ∧ r' = assign (rename_assignments nd nn) r).
Proof.
  intros [] Hr'.
  - eauto.
  - apply elem_of_update_where in Hr' as (r & Hr & ->).
    exists r. split; [done|].
    destruct (where_key od on r) eqn:Hk; [right | by left].
    by apply where_key_true in Hk.
  - apply list_elem_of_filter in Hr' as [_ Hr']. eauto.
  - apply elem_of_update_where in Hr' as (r & Hr & ->).
    apply list_elem_of_filter in Hr as [_ Hr]. exists r. split; [done|].
    destruct (where_key od on r) eqn:Hk; [right | by left].
    by apply where_key_true in Hk.
Qed.

(** Rows at other keys are neither added nor removed. *)
Lemma renamed_other od on nd nn l l' r :
  renamed od on nd nn l l' →
  key r ≠ (od, on) → key r ≠ (nd, nn) → (r ∈ l' ↔ r ∈ l).
Proof.
  intros Hren Ho Hn. split.
  - intros Hr.
    destruct (renamed_elem _ _ _ _ _ _ _ Hren Hr)
      as (r0 & Hr0 & [->|[_ ->]]); [done|].
    exfalso. apply Hn. by rewrite assign_rename.
  - apply where_key_false in Ho, Hn. intros Hr. destruct Hren.
    + done.
    + apply elem_of_update_where. exists r. by rewrite Ho.
    + by apply list_elem_of_filter.
    + apply elem_of_update_where. exists r. rewrite Ho. split; [|done].
      by apply list_elem_of_filter.
Qed.


(** The conflict fallback when the store fails nowhere: the row at the new
    key is deleted and the row at the old key takes its place. *)
Lemma RenameItem_conflict_no_fault oldName newName db r1 r2 :
  faults db = [] →
  unique_index (rows db) = true →
  r1 ∈ rows db → key r1 = Filepath.Split oldName →
  r2 ∈ rows db → key r2 = Filepath.Split newName →
  Filepath.Split oldName ≠ Filepath.Split newName →
  RenameItem oldName newName db =
    (None,
     with_rows db
       (update_where
          (where_key (Filepath.Split oldName).1 (Filepath.Split oldName).2)
          (rename_assignments
             (Filepath.Split newName).1 (Filepath.Split newName).2)
          (filter
             (λ r, where_key (Filepath.Split newName).1
                     (Filepath.Split newName).2 r = false)
             (rows db)))).
Proof.
  unfold RenameItem.
  destruct (Filepath.Split oldName) as [od on].
  destruct (Filepath.Split newName) as [nd nn]. simpl.
  intros Hf Hu Hr1 Hk1 Hr2 Hk2 Hne.
  apply unique_index_true in Hu.
  rewrite (Updates_rename_no_fault _ _ _ _ Hf).
  assert (unique_index
            (update_where (where_key od on) (rename_assignments nd nn)
               (rows db)) = false) as ->.
  { apply not_true_iff_false. rewrite unique_index_true.
    by apply (conflict_after_rename od on nd nn _ r1 r2). }
  change (Strings.Contains ErrUniqueIndex ErrorOfUniqueKeyExist) with true.
  cbv iota. unfold Transaction. rewrite (Delete_no_fault _ _ Hf).
  rewrite Updates_rename_no_fault by exact Hf. simpl.
  assert (unique_index
            (update_where (where_key od on) (rename_assignments nd nn)
               (filter (λ r, where_key nd nn r = false) (rows db))) = true)
    as ->; [|done].
  apply unique_index_true, unique_after_rename.
  - eapply sublist_NoDup; [exact Hu|]. apply fmap_sublist, sublist_filter.
  - intros r [Hr _]%list_elem_of_filter. by apply where_key_false.
Qed.

(** After it one row is left at the new key, the one that was at the old
    key, and the old key is free. *)
Lemma RenameItem_conflict_post oldName newName db r1 r2 :
  faults db = [] →
  unique_index (rows db) = true →
  r1 ∈ rows db → key r1 = Filepath.Split oldName →
  r2 ∈ rows db → key r2 = Filepath.Split newName →
  Filepath.Split oldName ≠ Filepath.Split newName →
  ∃ db',
    RenameItem oldName newName db = (None, db') ∧
    filter (λ r, key r = Filepath.Split newName) (rows db') =
      [assign (rename_assignments (Filepath.Split newName).1
                 (Filepath.Split newName).2) r1] ∧
    GetItem oldName db' = ((Item_zero, Some ErrRecordNotFound), db').
Proof.
  intros Hf Hu Hr1 Hk1 Hr2 Hk2 Hne.
  eexists. split;
    [exact (RenameItem_conflict_no_fault _ _ _ r1 r2
              Hf Hu Hr1 Hk1 Hr2 Hk2 Hne)|].
  apply unique_index_true in Hu. unfold GetItem.
  destruct (Filepath.Split oldName) as [od on].
  destruct (Filepath.Split newName) as [nd nn]. simpl.
  assert (∀ r, r ∈ filter (λ r, where_key nd nn r = false) (rows db) →
               key r ≠ (nd, nn)) as Hfree.
  { intros r [Hr _]%list_elem_of_filter. by apply where_key_false. }
  split.
  - rewrite filter_new_after_rename by done.
    rewrite filter_old_after_delete by done.
    rewrite <- Hk1, filter_key_unique by done. done.
  - rewrite First_no_fault by exact Hf. simpl.
    rewrite find_none; [done|].
    intros r (r0 & Hr0 & ->)%elem_of_update_where.
    destruct (where_key od on r0) eqn:Hk; [|done].
    apply where_key_false. rewrite key_assign_rename. congruence.
Qed.


(** A rename onto the path's own key changes nothing. *)
Lemma RenameItem_same_key oldName newName db :
  faults db = [] →
  unique_index (rows db) = true →
  Filepath.Split oldName = Filepath.Split newName →
  RenameItem oldName newName db = (None, db).
Proof.
  unfold RenameItem. intros Hf Hu <-.
  destruct (Filepath.Split oldName) as [od on].
  rewrite (Updates_rename_no_fault _ _ _ _ Hf).
  rewrite update_where_same_key, Hu. by destruct db.
Qed.

(** *** The scan in batches *)

(** [GetAllItem] succeeds only on a table that fits in less than one
    batch. *)
Lemma GetAllItem_success scan_order db l db' :
  GetAllItem scan_order db = ((l, None), db') →
  l = scan_order (rows db) ∧ (length l < 1000)%nat.
Proof.
  unfold GetAllItem, FindInBatches, Find.
  pose proof (next_fault_rows db) as Hr.
  destruct (next_fault db) as [[e|] db1]; simpl in *; [done|].
  rewrite Hr. set (all := scan_order (rows db)).
  case_bool_decide as Hlen.
  - case_bool_decide as Hlt; [|done]. intros [= <- _].
    rewrite length_take in Hlen.
    assert (length all = 0%nat) as Hall by lia.
    destruct all; [done | simpl in Hall; lia].
  - case_bool_decide as Hlt; [|done]. intros [= <- _].
    rewrite length_take in Hlt. rewrite take_ge by lia.
    split; [done | lia].
Qed.

(** On a table of a thousand rows or more it returns the first batch and
    [ErrPrimaryKeyRequired]. *)
Lemma GetAllItem_full_batch scan_order db :
  faults db = [] →
  (1000 ≤ length (scan_order (rows db)))%nat →
  GetAllItem scan_order db =
    ((take 1000 (scan_order (rows db)), Some ErrPrimaryKeyRequired), db).
Proof.
  intros Hf Hlen. unfold GetAllItem, FindInBatches, Find.
  rewrite (next_fault_nil _ Hf).
  rewrite bool_decide_eq_false_2 by (rewrite length_take; lia).
  rewrite bool_decide_eq_false_2 by (rewrite length_take; lia).
  done.
Qed.

End RepositoryFacts.

(** ** The scenarios of the specification, run on the model *)

Module Scenarios.

Import Dbmeta.
Local Open Scope Z_scope.

(** Upsert [/a/b.txt] with size 10 and fingerprint [f1], then again with
    size 20 and fingerprint [f2]: [GetItem] returns size 10, then size 20
    and [f2] with [created_at] as it was and [updated_at] advanced. *)
Example upsert_twice_then_get :
  let db1 := (UpsertItem Sample.Unmarshal 1000 1000 Sample.file_b_first
                Sample.empty_db).2 in
  let db2 := (UpsertItem Sample.Unmarshal 2000 2000 Sample.file_b_again
                db1).2 in
  let g1 := (GetItem "/a/b.txt" db1).1.1 in
  let g2 := (GetItem "/a/b.txt" db2).1.1 in
  (Size g1, Sha1 g1, CreatedAt g1, UpdatedAt g1) = (10, "f1", 1000, 1000) ∧
  (Size g2, Sha1 g2, CreatedAt g2, UpdatedAt g2) = (20, "f2", 1000, 2000).
Proof. vm_compute. done. Qed.

(** Upsert [/a/b.txt] and [/a/c.txt], rename the first onto the second:
    [GetAllItem] returns one row, named [c.txt], with the size and hash of
    [b.txt]. *)
Example rename_onto_existing_then_getall :
  let db1 := (UpsertItem Sample.Unmarshal 1000 1000 Sample.file_b_first
                Sample.empty_db).2 in
  let db2 := (UpsertItem Sample.Unmarshal 1001 1001 Sample.file_c_first
                db1).2 in
  let db3 := (RenameItem "/a/b.txt" "/a/c.txt" db2).2 in
  (RenameItem "/a/b.txt" "/a/c.txt" db2).1 = None ∧
  (λ r, (Name r, Size r, Sha1 r)) <$>
    (GetAllItem Sample.scan_order db3).1.1 = [("c.txt", 10, "f1")].
Proof. vm_compute. done. Qed.

(** Renaming onto a free path moves the row. *)
Example rename_onto_free_path :
  let db' := (RenameItem "/a/b.txt" "/a/z.txt" Sample.db3).2 in
  (GetItem "/a/z.txt" db').1.1 =
    assign (rename_assignments "/a/" "z.txt") Sample.file_b ∧
  (GetItem "/a/b.txt" db').1.2 = Some ErrRecordNotFound.
Proof. vm_compute. done. Qed.

(** Deleting a path that has no row is no error and changes nothing. *)
Example delete_absent_path :
  DeleteItem "/a/none" Sample.db3 = (None, Sample.db3).
Proof. vm_compute. done. Qed.

(** The name of the package's test is no partial file; the name without
    the trailing [1] is one. *)
Example Test_IsPartialFile :
  Hybridzfs.IsPartialFile Hybridzfs.test_name = false ∧
  Hybridzfs.IsPartialFile "新建 文本文档.txt.efe454dd.partial" = true.
Proof. vm_compute. done. Qed.

End Scenarios.

(** * The repository against its specification *)

Import Dbmeta StoreFacts RepositoryFacts.
Local Open Scope Z_scope.

(** ** Rename: the conflict fallback *)


(** ** Upsert *)

(** C2.  For an entry of type object whose info blob does not decode,
    [UpsertItem] returns the decoder's error before any statement is issued:
    the store, rows and all, is the one it was given. *)
Theorem C2_upsert_decode_failure_no_write
    (Unmarshal : list byte → Info.t + string) (now curTime : Z)
    (item : Item) (db : DB) (e : string) :
  Type_ item = EntryObject →
  Unmarshal (Info item) = inr e →
  UpsertItem Unmarshal now curTime item db = (Some e, db).
Proof.
  intros Ht He. unfold UpsertItem, decodeInfo.
  rewrite bool_decide_eq_true_2 by done. by rewrite He.
Qed.

Lemma C2_upsert_decode_failure_witness :
  Type_ Sample.file_broken = EntryObject ∧
  Sample.Unmarshal (Info Sample.file_broken) = inr "invalid character" ∧
  UpsertItem Sample.Unmarshal 2000 2000 Sample.file_broken Sample.db3 =
    (Some "invalid character", Sample.db3).
Proof.
  split; [reflexivity|]. split; [reflexivity|].
  apply C2_upsert_decode_failure_no_write; reflexivity.
Defined.









(** ** Timestamps *)




(** ** Paths and keys *)



(** ** Reading the whole table *)



(** ** Filters *)

(** C9.  [FilterParentPath path operator] is the filter
    [FilterName path operator]: it adds to the statement the one condition
    [name <operator> ?] bound to [path], after the conditions already there,
    and no other, so none on the column [parent_path]; a query built from
    either filter is the same query. *)
Theorem C9_filter_parent_path_is_filter_name
    (path operator : string) (db : Statement) :
  FilterParentPath path operator db = FilterName path operator db ∧
  conds (FilterParentPath path operator db) =
    conds db ++ [("name " +:+ operator +:+ " ?", [VText path])] ∧
  table (FilterParentPath path operator db) = table db ∧
  basicFilter db [FilterParentPath path operator] =
    basicFilter db [FilterName path operator].
Proof.
  unfold basicFilter, Scopes, FilterParentPath, FilterName, Where,
    Sprintf_name. simpl.
  split; [reflexivity|]. split; [reflexivity|]. split; reflexivity.
Qed.

(** ** Names of partial files *)

(** C10 as stated fails: a name made of a prefix, a dot, eight bytes of
    [a-f0-9] and [.partial] is refused when its prefix holds a newline. *)
Lemma C10_newline_prefix_counterexample :
  Hybridzfs.described_shape Hybridzfs.two_line_name ∧
  Hybridzfs.IsPartialFile Hybridzfs.two_line_name = false.
Proof.
  split; [|reflexivity].
  exists (String "a" (String "010" (String "b" EmptyString))), "efe454dd".
  split; [reflexivity|]. split; reflexivity.
Qed.

(** C10, amended.  [IsPartialFile name] holds exactly when [name] is a
    prefix without newline, then a dot, then eight bytes of [a-f0-9], then
    [.partial] ending the name.  A name that goes on after [.partial] with
    a [1], as the one of the package's test, is refused. *)
Theorem C10_is_partial_file :
  (∀ name,
     Hybridzfs.IsPartialFile name = true ↔
     ∃ prefix h : string,
       name = prefix +:+ "." +:+ h +:+ ".partial" ∧
       Regexp.all_bytes Regexp.not_newline prefix = true ∧
       String.length h = 8%nat ∧
       Regexp.all_bytes Hybridzfs.hex_lower h = true) ∧
  (∀ s, Hybridzfs.IsPartialFile (s +:+ ".partial1") = false) ∧
  Hybridzfs.IsPartialFile Hybridzfs.test_name = false.
Proof.
  split; [apply RegexpFacts.IsPartialFile_spec|].
  split; [apply RegexpFacts.IsPartialFile_partial1 | reflexivity].
Qed.

(** * Further properties of the code *)

(** ** More facts on the store and the repository *)

Module WriteFacts.

Lemma next_fault_rows_eq db f db1 :
  next_fault db = (f, db1) → rows db1 = rows db.
Proof. intros H. by rewrite <- (next_fault_rows db), H. Qed.

Lemma Updates_unique cond m db err db' :
  Updates cond m db = (err, db') →
  unique_index (rows db) = true → unique_index (rows db') = true.
Proof.
  unfold Updates. case_bool_decide as Hm; [by intros [= _ <-]|].
  destruct (next_fault db) as [f db1] eqn:Hf.
  apply next_fault_rows_eq in Hf.
  destruct f as [e|]; [intros [= _ <-]; by rewrite Hf|].
  destruct (assignments_ok m); simpl; [|intros [= _ <-]; by rewrite Hf].
  destruct (unique_index (update_where _ _ _)) eqn:Hu.
  - by intros [= _ <-].
  - intros [= _ <-]. by rewrite Hf.
Qed.

Lemma unique_filter (P : Item → Prop) `{∀ x, Decision (P x)} l :
  unique_index l = true → unique_index (filter P l) = true.
Proof.
  rewrite !unique_index_true. intros Hu.
  eapply sublist_NoDup; [exact Hu|]. apply fmap_sublist, sublist_filter.
Qed.

Lemma Delete_unique cond db err db' :
  Delete cond db = (err, db') →
  unique_index (rows db) = true → unique_index (rows db') = true.
Proof.
  intros Hd%Delete_rows Hu. rewrite Hd. destruct err; [done|].
  by apply unique_filter.
Qed.

Lemma existsb_where_key_false d n l :
  existsb (where_key d n) l = false → (d, n) ∉ key <$> l.
Proof.
  intros He (r & Hk & Hr)%list_elem_of_fmap.
  apply not_true_iff_false in He. apply He, existsb_exists.
  exists r. split; [by apply list_elem_of_In|]. by apply where_key_true.
Qed.

Lemma unique_insert curTime item l :
  unique_index l = true →
  existsb (where_key (ParentPath item) (Name item)) l = false →
  unique_index (l ++ [created curTime item]) = true.
Proof.
  rewrite !unique_index_true. intros Hu He%existsb_where_key_false.
  rewrite fmap_app. apply NoDup_app. split; [done|]. split.
  - intros k Hk Hk'. apply list_elem_of_singleton in Hk'. by subst.
  - apply NoDup_singleton.
Qed.

Lemma CreateOnConflict_rows m t item db err db' :
  CreateOnConflict m t item db = (err, db') →
  rows db' =
    match err with
    | Some _ => rows db
    | None =>
        if existsb (where_key (ParentPath item) (Name item)) (rows db)
        then update_where (where_key (ParentPath item) (Name item)) m
               (rows db)
        else rows db ++ [created t item]
    end.
Proof.
  destruct err as [e|]; [|apply CreateOnConflict_inv].
  unfold CreateOnConflict. destruct (next_fault db) as [f db1] eqn:Hf.
  apply next_fault_rows_eq in Hf.
  destruct f as [e'|]; [by intros [= _ <-]|].
  destruct (assignments_ok m); simpl; [|by intros [= _ <-]].
  destruct (existsb _ _); [|done].
  destruct (unique_index _); [done | by intros [= _ <-]].
Qed.

Lemma CreateOnConflict_unique m t item db err db' :
  CreateOnConflict m t item db = (err, db') →
  unique_index (rows db) = true → unique_index (rows db') = true.
Proof.
  unfold CreateOnConflict. destruct (next_fault db) as [f db1] eqn:Hf.
  apply next_fault_rows_eq in Hf.
  destruct f as [e'|]; [intros [= _ <-]; by rewrite Hf|].
  destruct (assignments_ok m); simpl; [|intros [= _ <-]; by rewrite Hf].
  rewrite Hf. destruct (existsb _ _) eqn:He.
  - destruct (unique_index (update_where _ _ _)) eqn:Hu;
      intros [= _ <-]; simpl; [done | by rewrite Hf].
  - intros [= _ <-] Hu. simpl. by apply unique_insert.
Qed.

Lemma UpsertItem_rows Unmarshal now curTime item db err db' :
  UpsertItem Unmarshal now curTime item db = (err, db') →
  match err with
  | Some _ => rows db' = rows db
  | None => True
  end.
Proof.
  unfold UpsertItem. destruct (decodeInfo Unmarshal item) as [info|e].
  - intros H%CreateOnConflict_rows. by destruct err.
  - by intros [= <- <-].
Qed.

Lemma UpsertItem_unique Unmarshal now curTime item db err db' :
  UpsertItem Unmarshal now curTime item db = (err, db') →
  unique_index (rows db) = true → unique_index (rows db') = true.
Proof.
  unfold UpsertItem. destruct (decodeInfo Unmarshal item) as [info|e].
  - apply CreateOnConflict_unique.
  - by intros [= _ <-].
Qed.

Lemma RenameItem_unique oldName newName db err db' :
  RenameItem oldName newName db = (err, db') →
  unique_index (rows db) = true → unique_index (rows db') = true.
Proof.
  unfold RenameItem.
  destruct (Filepath.Split oldName) as [od on].
  destruct (Filepath.Split newName) as [nd nn].
  destruct (Updates _ _ db) as [[e|] db1] eqn:Hu1; intros H Hu;
    pose proof (Updates_unique _ _ _ _ _ Hu1 Hu) as Hu1'.
  - destruct (Strings.Contains e ErrorOfUniqueKeyExist).
    + unfold Transaction in H.
      destruct (Delete _ db1) as [[e1|] tx1] eqn:Hd;
        pose proof (Delete_unique _ _ _ _ Hd Hu1') as Hd'.
      * by injection H as _ <-.
      * destruct (Updates _ _ tx1) as [[e2|] tx2] eqn:Hu2;
          pose proof (Updates_unique _ _ _ _ _ Hu2 Hd');
          by injection H as _ <-.
    + by injection H as _ <-.
  - by injection H as _ <-.
Qed.

Lemma RenameItem_error_rows oldName newName db e db' :
  RenameItem oldName newName db = (Some e, db') → rows db' = rows db.
Proof.
  unfold RenameItem.
  destruct (Filepath.Split oldName) as [od on].
  destruct (Filepath.Split newName) as [nd nn].
  destruct (Updates _ _ db) as [[e1|] db1] eqn:Hu1; [|done].
  apply Updates_rows in Hu1.
  destruct (Strings.Contains e1 ErrorOfUniqueKeyExist).
  - unfold Transaction.
    destruct (Delete _ db1) as [[e2|] tx1] eqn:Hd.
    + intros [= _ <-]. simpl. done.
    + destruct (Updates _ _ tx1) as [[e3|] tx2]; done.
  - by intros [= _ <-].
Qed.

Lemma find_new_after_rename od on nd nn (l : list Item) :
  (∀ r, r ∈ l → key r ≠ (nd, nn)) →
  List.find (where_key nd nn)
    (update_where (where_key od on) (rename_assignments nd nn) l) =
  assign (rename_assignments nd nn) <$> List.find (where_key od on) l.
Proof.
  induction l as [|r l IH]; intros Hfree; [done|]. simpl.
  assert (∀ r0, r0 ∈ l → key r0 ≠ (nd, nn)) as Hl
    by (intros r0 Hr0; apply Hfree; by right).
  destruct (where_key od on r) eqn:Hk.
  - assert (where_key nd nn (assign (rename_assignments nd nn) r) = true)
      as -> by (by apply where_key_true). done.
  - assert (where_key nd nn r = false) as ->.
    { apply where_key_false, Hfree. by left. }
    by apply IH.
Qed.

Lemma find_old_after_rename od on nd nn (l : list Item) :
  (od, on) ≠ (nd, nn) →
  List.find (where_key od on)
    (update_where (where_key od on) (rename_assignments nd nn) l) = None.
Proof.
  intros Hne. apply find_none.
  intros r (r0 & Hr0 & ->)%elem_of_update_where.
  destruct (where_key od on r0) eqn:Hk; [|done].
  apply where_key_false. rewrite key_assign_rename. congruence.
Qed.

Lemma RenameItem_free_no_fault oldName newName db :
  faults db = [] →
  unique_index (rows db) = true →
  existsb (where_key (Filepath.Split newName).1 (Filepath.Split newName).2)
    (rows db) = false →
  RenameItem oldName newName db =
    (None,
     with_rows db
       (update_where
          (where_key (Filepath.Split oldName).1 (Filepath.Split oldName).2)
          (rename_assignments
             (Filepath.Split newName).1 (Filepath.Split newName).2)
          (rows db))).
Proof.
  unfold RenameItem.
  destruct (Filepath.Split oldName) as [od on].
  destruct (Filepath.Split newName) as [nd nn]. simpl.
  intros Hf Hu Hfree. apply unique_index_true in Hu.
  rewrite (Updates_rename_no_fault _ _ _ _ Hf).
  assert (unique_index
            (update_where (where_key od on) (rename_assignments nd nn)
               (rows db)) = true) as ->; [|done].
  apply unique_index_true, unique_after_rename; [done|].
  intros r Hr Hk. apply existsb_where_key_false in Hfree. apply Hfree.
  apply list_elem_of_fmap. by exists r.
Qed.

Lemma find_filter_other (P Q : Item → bool) (l : list Item) :
  (∀ r, Q r = true → P r = false) →
  List.find Q (filter (λ r, P r = false) l) = List.find Q l.
Proof.
  intros HPQ. induction l as [|r l IH]; [done|].
  destruct (P r) eqn:HP.
  - rewrite filter_cons_False by (by rewrite HP). simpl.
    destruct (Q r) eqn:HQ; [|done]. apply HPQ in HQ. congruence.
  - rewrite filter_cons_True by done. simpl. by rewrite IH.
Qed.

Lemma find_filter_self (P : Item → bool) (l : list Item) :
  List.find P (filter (λ r, P r = false) l) = None.
Proof.
  apply find_none. by intros r [Hr _]%list_elem_of_filter.
Qed.

Lemma existsb_update_where_key d n m l :
  m !! "parent_path" = None → m !! "name" = None →
  existsb (where_key d n) (update_where (where_key d n) m l) =
  existsb (where_key d n) l.
Proof.
  intros Hp Hn. induction l as [|r l IH]; [done|]. simpl. rewrite IH.
  f_equal. destruct (where_key d n r) eqn:Hk; [|done].
  unfold where_key in *. simpl. by rewrite Hp, Hn.
Qed.

Lemma key_assign_no_key_columns m r :
  m !! "parent_path" = None → m !! "name" = None → key (assign m r) = key r.
Proof. intros Hp Hn. unfold key. simpl. by rewrite Hp, Hn. Qed.

Lemma keys_update_where_no_key_columns cond m l :
  m !! "parent_path" = None → m !! "name" = None →
  key <$> update_where cond m l = key <$> l.
Proof.
  intros Hp Hn. unfold update_where. rewrite <- list_fmap_compose.
  apply list_fmap_ext. intros i r _. simpl.
  destruct (cond r); [by apply key_assign_no_key_columns | done].
Qed.

Lemma find_unique d n (l : list Item) r :
  NoDup (key <$> l) → r ∈ l → key r = (d, n) →
  List.find (where_key d n) l = Some r.
Proof.
  induction l as [|x l IH]; intros Hnd Hr Hk; [by apply elem_of_nil in Hr|].
  rewrite fmap_cons in Hnd. apply NoDup_cons in Hnd as [Hx Hnd]. simpl.
  apply elem_of_cons in Hr as [->|Hr].
  - by rewrite (proj2 (where_key_true d n x) Hk).
  - destruct (where_key d n x) eqn:Hkx; [|by apply IH].
    exfalso. apply Hx. apply where_key_true in Hkx. rewrite Hkx, <- Hk.
    apply list_elem_of_fmap. by exists r.
Qed.

Lemma find_update_where_other (P Q : Item → bool) m (l : list Item) :
  (∀ r, P r = true → Q r = false ∧ Q (assign m r) = false) →
  List.find Q (update_where P m l) = List.find Q l.
Proof.
  intros H. induction l as [|r l IH]; [done|]. simpl.
  destruct (P r) eqn:HP.
  - destruct (H r HP) as [-> ->]. exact IH.
  - destruct (Q r); [done | exact IH].
Qed.

Lemma filter_all (P : Item → Prop) `{∀ x, Decision (P x)} (l : list Item) :
  (∀ x, x ∈ l → P x) → filter P l = l.
Proof.
  induction l as [|x l IH]; intros Hall; [done|].
  rewrite filter_cons_True by (apply Hall; by left).
  f_equal. apply IH. intros y Hy. apply Hall. by right.
Qed.

Lemma upsert_assignments_ok now info item :
  assignments_ok (upsert_assignments now info item) = true.
Proof. reflexivity. Qed.

Lemma UpsertItem_no_fault Unmarshal now curTime item db info :
  faults db = [] →
  unique_index (rows db) = true →
  decodeInfo Unmarshal item = inl info →
  UpsertItem Unmarshal now curTime item db =
    (None,
     with_rows db
       (if existsb (where_key (ParentPath item) (Name item)) (rows db)
        then update_where (where_key (ParentPath item) (Name item))
               (upsert_assignments now info item) (rows db)
        else rows db ++ [created curTime item])).
Proof.
  intros Hf Hu Hd. unfold UpsertItem, CreateOnConflict.
  rewrite Hd, (next_fault_nil _ Hf), upsert_assignments_ok. simpl.
  destruct (existsb _ _); [|done].
  assert (unique_index
            (update_where (where_key (ParentPath item) (Name item))
               (upsert_assignments now info item) (rows db)) = true)
    as ->; [|done].
  apply unique_index_true.
  rewrite keys_update_where_no_key_columns by reflexivity.
  by apply unique_index_true.
Qed.

Lemma DeleteItem_unique name db err db' :
  DeleteItem name db = (err, db') →
  unique_index (rows db) = true → unique_index (rows db') = true.
Proof.
  unfold DeleteItem. destruct (Filepath.Split name). apply Delete_unique.
Qed.

Lemma ModifyItem_unique name m db err db' :
  ModifyItem name m db = (err, db') →
  unique_index (rows db) = true → unique_index (rows db') = true.
Proof.
  unfold ModifyItem. destruct (Filepath.Split name). apply Updates_unique.
Qed.

Lemma DeleteItem_error_rows name db e db' :
  DeleteItem name db = (Some e, db') → rows db' = rows db.
Proof.
  unfold DeleteItem. destruct (Filepath.Split name).
  by intros H%Delete_rows.
Qed.

Lemma ModifyItem_error_rows name m db e db' :
  ModifyItem name m db = (Some e, db') → rows db' = rows db.
Proof.
  unfold ModifyItem. destruct (Filepath.Split name).
  by intros H%Updates_rows.
Qed.

Lemma GetItem_where_key name db :
  faults db = [] →
  GetItem name db =
    (match List.find
             (where_key (Filepath.Split name).1 (Filepath.Split name).2)
             (rows db) with
     | Some r => (r, None)
     | None => (Item_zero, Some ErrRecordNotFound)
     end, db).
Proof.
  intros Hf. unfold GetItem. destruct (Filepath.Split name) as [d n].
  by apply First_no_fault.
Qed.

Lemma where_key_other d n d' n' r :
  (d', n') ≠ (d, n) → where_key d n r = true → where_key d' n' r = false.
Proof.
  intros Hne Hk%where_key_true. apply where_key_false. congruence.
Qed.

Lemma existsb_where_key_free d n (l : list Item) :
  (∀ r, r ∈ l → key r ≠ (d, n)) → existsb (where_key d n) l = false.
Proof.
  intros Hfree. apply not_true_iff_false.
  intros (r & Hr & Hk)%existsb_exists.
  apply (Hfree r); [by apply list_elem_of_In | by apply where_key_true].
Qed.

Lemma find_app_split (P : Item → bool) (l1 l2 : list Item) :
  List.find P (l1 ++ l2) =
  match List.find P l1 with
  | Some x => Some x
  | None => List.find P l2
  end.
Proof.
  induction l1 as [|x l1 IH]; [done|]. simpl. by destruct (P x).
Qed.

Lemma update_where_upsert_twice d n now1 info1 item1 now2 info2 item2
    (l : list Item) :
  update_where (where_key d n) (upsert_assignments now2 info2 item2)
    (update_where (where_key d n) (upsert_assignments now1 info1 item1) l) =
  update_where (where_key d n) (upsert_assignments now2 info2 item2) l.
Proof.
  unfold update_where. rewrite <- list_fmap_compose.
  apply list_fmap_ext. intros i r _. simpl.
  destruct (where_key d n r) eqn:Hk; [|by rewrite Hk].
  assert (where_key d n (assign (upsert_assignments now1 info1 item1) r)
          = true) as ->; [|done].
  apply where_key_true in Hk. apply where_key_true. by rewrite <- Hk.
Qed.

End WriteFacts.

(** ** Bytes of a name *)

Module NameFacts.

Lemma string_app_assoc (a b c : string) :
  (a +:+ b) +:+ c = a +:+ b +:+ c.
Proof.
  induction a as [|x a IH]; [by rewrite !StringFacts.app_empty_l|].
  by rewrite !StringFacts.app_String, IH.
Qed.

Lemma all_bytes_app f (s1 s2 : string) :
  Regexp.all_bytes f (s1 +:+ s2) =
  Regexp.all_bytes f s1 && Regexp.all_bytes f s2.
Proof.
  induction s1 as [|c s1 IH]; [done|].
  rewrite StringFacts.app_String. simpl. rewrite IH.
  by rewrite andb_assoc.
Qed.

Lemma all_bytes_weaken (f g : ascii → bool) (s : string) :
  (∀ c, f c = true → g c = true) →
  Regexp.all_bytes f s = true → Regexp.all_bytes g s = true.
Proof.
  intros Hfg. induction s as [|c s IH]; [done|]. simpl.
  intros [Hc Hs]%andb_true_iff. by rewrite (Hfg c Hc), IH.
Qed.

Lemma hex_lower_not_newline c :
  Hybridzfs.hex_lower c = true → Regexp.not_newline c = true.
Proof.
  unfold Regexp.not_newline. destruct (Ascii.eqb_spec c "010") as [->|];
    [by vm_compute | done].
Qed.

End NameFacts.

(** ** Mode bits and suffixes *)

Module HvfsFacts.

Import Hvfs.

Lemma ModeSymlink_bits n : Z.testbit ModeSymlink n = (27 =? n).
Proof. unfold ModeSymlink. by apply Z.pow2_bits_eqb. Qed.

Lemma ldiff_ModeSymlink (x : Z) :
  (Z.ldiff x ModeSymlink =? 0) = (x =? 0) || (x =? ModeSymlink).
Proof.
  apply eq_true_iff_eq.
  rewrite orb_true_iff, !Z.eqb_eq. split.
  - intros H.
    assert (∀ n, n ≠ 27 → Z.testbit x n = false) as Hbits.
    { intros n Hn.
      pose proof (f_equal (λ z, Z.testbit z n) H) as Hb. simpl in Hb.
      rewrite Z.ldiff_spec, ModeSymlink_bits, Z.bits_0 in Hb.
      destruct (Z.eqb_spec 27 n); [congruence|].
      simpl in Hb. by rewrite andb_true_r in Hb. }
    destruct (Z.testbit x 27) eqn:H27.
    + right. apply Z.bits_inj'. intros n _.
      rewrite ModeSymlink_bits.
      destruct (Z.eqb_spec 27 n) as [<-|Hn]; [done|].
      apply Hbits. congruence.
    + left. apply Z.bits_inj'. intros n _. rewrite Z.bits_0.
      destruct (Z.eq_dec n 27) as [->|Hn]; [done | by apply Hbits].
  - intros [->| ->]; [done | apply Z.ldiff_diag].
Qed.


End HvfsFacts.

Module SuffixFacts.

Import Hvfs.


Lemma substring_app_r (a b : string) :
  String.substring (String.length a) (String.length b) (a +:+ b) = b.
Proof.
  induction a as [|c a IH].
  - rewrite StringFacts.app_empty_l. apply StringFacts.substring_whole.
  - rewrite StringFacts.app_String. simpl. exact IH.
Qed.

Lemma HasSuffix_app (a suffix : string) :
  HasSuffix (a +:+ suffix) suffix = true.
Proof.
  unfold HasSuffix. rewrite StringFacts.length_app.
  apply andb_true_iff. split; [apply Nat.leb_le; lia|].
  replace (String.length a + String.length suffix - String.length suffix)%nat
    with (String.length a) by lia.
  rewrite substring_app_r. apply String.eqb_refl.
Qed.

Lemma HasSuffix_spec (s suffix : string) :
  HasSuffix s suffix = true ↔ ∃ a, s = a +:+ suffix.
Proof.
  split; [|intros [a ->]; apply HasSuffix_app].
  unfold HasSuffix. intros [Hle Heq]%andb_true_iff.
  apply Nat.leb_le in Hle. apply String.eqb_eq in Heq.
  exists (String.substring 0 (String.length s - String.length suffix) s).
  pose proof (StringFacts.substring_split s
                (String.length s - String.length suffix)) as Hs.
  replace (String.length s - (String.length s - String.length suffix))%nat
    with (String.length suffix) in Hs by lia.
  rewrite Heq in Hs. symmetry. apply Hs. lia.
Qed.


End SuffixFacts.

Import WriteFacts NameFacts.

(** ** The repository: invariants of the writes *)

(** X1.  The unique index holds through every write: on a table where no
    two rows share [(parent_path, name)], the table that [UpsertItem],
    [DeleteItem], [ModifyItem] or [RenameItem] leaves, whether the call
    succeeds, fails, or ends in the half-done rename, has no two rows with
    the same key either. *)
Theorem writes_keep_the_keys_unique
    (Unmarshal : list byte → Info.t + string) (db : DB) :
  unique_index (rows db) = true →
  (∀ now curTime item,
     unique_index (rows (UpsertItem Unmarshal now curTime item db).2)
     = true) ∧
  (∀ name, unique_index (rows (DeleteItem name db).2) = true) ∧
  (∀ name infoMap,
     unique_index (rows (ModifyItem name infoMap db).2) = true) ∧
  (∀ oldName newName,
     unique_index (rows (RenameItem oldName newName db).2) = true).
Proof.
  intros Hu. split; [|split; [|split]].
  - intros now curTime item.
    destruct (UpsertItem _ _ _ _ _) as [err db'] eqn:H.
    by eapply UpsertItem_unique.
  - intros name. destruct (DeleteItem _ _) as [err db'] eqn:H.
    by eapply DeleteItem_unique.
  - intros name m. destruct (ModifyItem _ _ _) as [err db'] eqn:H.
    by eapply ModifyItem_unique.
  - intros o n. destruct (RenameItem _ _ _) as [err db'] eqn:H.
    by eapply RenameItem_unique.
Qed.

Lemma writes_keep_the_keys_unique_witness :
  unique_index (rows Sample.db3) = true ∧
  unique_index
    (rows (UpsertItem Sample.Unmarshal 2000 2000 Sample.file_b_again
             Sample.db3).2) = true ∧
  unique_index (rows (DeleteItem "/a/b.txt" Sample.db3).2) = true ∧
  unique_index
    (rows (ModifyItem "/a/b.txt" (rename_assignments "/a/" "c.txt")
             Sample.db3).2) = true ∧
  unique_index (rows (RenameItem "/a/b.txt" "/a/c.txt" Sample.db3).2)
  = true.
Proof.
  split; [reflexivity|].
  destruct (writes_keep_the_keys_unique Sample.Unmarshal Sample.db3
              eq_refl) as (H1 & H2 & H3 & H4).
  split; [apply H1|]. split; [apply H2|]. split; [apply H3 | apply H4].
Defined.

(** X2.  A write that returns an error has written nothing: when
    [UpsertItem], [DeleteItem], [ModifyItem] or [RenameItem] returns an
    error, the rows of the table are the ones it started with. *)
Theorem failed_write_leaves_the_table
    (Unmarshal : list byte → Info.t + string) (db db' : DB) (e : string) :
  (∃ now curTime item,
     UpsertItem Unmarshal now curTime item db = (Some e, db')) ∨
  (∃ name, DeleteItem name db = (Some e, db')) ∨
  (∃ name infoMap, ModifyItem name infoMap db = (Some e, db')) ∨
  (∃ oldName newName, RenameItem oldName newName db = (Some e, db')) →
  rows db' = rows db.
Proof.
  intros [(now & curTime & item & H)|[(name & H)|[(name & m & H)|
    (o & n & H)]]].
  - by apply UpsertItem_rows in H.
  - by eapply DeleteItem_error_rows.
  - by eapply ModifyItem_error_rows.
  - by eapply RenameItem_error_rows.
Qed.

Lemma failed_write_leaves_the_table_witness :
  RenameItem "/a/b.txt" "/a/z.txt" Cases.db3_down =
    (Some "database is locked", Sample.db3) ∧
  rows Sample.db3 = rows Cases.db3_down.
Proof.
  split; [vm_compute; reflexivity|].
  apply (failed_write_leaves_the_table Sample.Unmarshal Cases.db3_down
           Sample.db3 "database is locked").
  right. right. right. exists "/a/b.txt", "/a/z.txt".
  vm_compute. reflexivity.
Defined.

(** ** The repository: rename *)

(** X3.  Renaming onto a path without row, in a store that does not fail
    and holds a row at the old path: [RenameItem] returns [nil]; [GetItem]
    on the new path returns the old row with the key replaced and every
    other column, [updated_at] included, as it was; [GetItem] on the old
    path finds nothing; every other path reads as before, and the table
    has as many rows as before. *)
Theorem rename_to_free_path oldName newName db r :
  faults db = [] →
  unique_index (rows db) = true →
  r ∈ rows db → key r = Filepath.Split oldName →
  (∀ r', r' ∈ rows db → key r' ≠ Filepath.Split newName) →
  ∃ db',
    RenameItem oldName newName db = (None, db') ∧
    GetItem newName db' =
      (({| ParentPath := (Filepath.Split newName).1;
           Name := (Filepath.Split newName).2;
           Type_ := Type_ r; Size := Size r; State := State r;
           Sha1 := Sha1 r; CreatedAt := CreatedAt r;
           UpdatedAt := UpdatedAt r; Info := Info r |}, None), db') ∧
    GetItem oldName db' = ((Item_zero, Some ErrRecordNotFound), db') ∧
    (∀ other,
       Filepath.Split other ≠ Filepath.Split oldName →
       Filepath.Split other ≠ Filepath.Split newName →
       (GetItem other db').1 = (GetItem other db).1) ∧
    length (rows db') = length (rows db).
Proof.
  intros Hf Hu Hr Hk Hfree.
  assert (Filepath.Split oldName ≠ Filepath.Split newName) as Hne.
  { intros Heq. apply (Hfree r Hr). by rewrite Hk. }
  eexists. split.
  { apply RenameItem_free_no_fault; [done | done |].
    apply existsb_where_key_free. intros r' Hr'.
    rewrite <- surjective_pairing. by apply Hfree. }
  destruct (Filepath.Split oldName) as [od on] eqn:Ho.
  destruct (Filepath.Split newName) as [nd nn] eqn:Hn. simpl.
  apply unique_index_true in Hu.
  split; [|split; [|split]].
  - rewrite GetItem_where_key by done. rewrite Hn. simpl.
    rewrite find_new_after_rename by done.
    rewrite (find_unique od on _ r) by done. simpl.
    by rewrite assign_rename.
  - rewrite GetItem_where_key by done. rewrite Ho. simpl.
    by rewrite find_old_after_rename.
  - intros other Ho' Hn'. rewrite !GetItem_where_key by done.
    destruct (Filepath.Split other) as [d n]. simpl.
    rewrite find_update_where_other; [done|].
    intros r0 Hr0. split.
    + by apply (where_key_other od on d n r0).
    + apply where_key_false. by rewrite key_assign_rename.
  - simpl. unfold update_where. by rewrite length_fmap.
Qed.

Lemma rename_to_free_path_witness :
  ∃ db',
    RenameItem "/a/b.txt" "/a/z.txt" Sample.db3 = (None, db') ∧
    GetItem "/a/z.txt" db' =
      (({| ParentPath := "/a/"; Name := "z.txt"; Type_ := EntryObject;
           Size := 10; State := 0; Sha1 := "f1"; CreatedAt := 1000;
           UpdatedAt := 1000; Info := Sample.json "null" |}, None), db') ∧
    GetItem "/a/b.txt" db' = ((Item_zero, Some ErrRecordNotFound), db') ∧
    (∀ other,
       Filepath.Split other ≠ Filepath.Split "/a/b.txt" →
       Filepath.Split other ≠ Filepath.Split "/a/z.txt" →
       (GetItem other db').1 = (GetItem other Sample.db3).1) ∧
    length (rows db') = length (rows Sample.db3).
Proof.
  apply (rename_to_free_path "/a/b.txt" "/a/z.txt" Sample.db3
           Sample.file_b eq_refl eq_refl).
  - by left.
  - reflexivity.
  - intros r' Hr' Hk.
    assert (bool_decide (key r' = ("/a/", "z.txt")) = true) as Hb
      by (by apply bool_decide_eq_true_2).
    set_unfold in Hr'. destruct Hr' as [->|[->|[->|[]]]]; done.
Defined.

(** X4.  Renaming onto a path that has a row, in a store that does not
    fail: the fallback replaces that row.  [RenameItem] returns [nil];
    [GetItem] on the new path returns the row that was at the old path, with
    the new key and its own other columns; the old path reads as not found,
    every other path as before, and the table has lost one row. *)
Theorem rename_onto_taken_path oldName newName db r1 r2 :
  faults db = [] →
  unique_index (rows db) = true →
  r1 ∈ rows db → key r1 = Filepath.Split oldName →
  r2 ∈ rows db → key r2 = Filepath.Split newName →
  Filepath.Split oldName ≠ Filepath.Split newName →
  ∃ db',
    RenameItem oldName newName db = (None, db') ∧
    GetItem newName db' =
      (({| ParentPath := (Filepath.Split newName).1;
           Name := (Filepath.Split newName).2;
           Type_ := Type_ r1; Size := Size r1; State := State r1;
           Sha1 := Sha1 r1; CreatedAt := CreatedAt r1;
           UpdatedAt := UpdatedAt r1; Info := Info r1 |}, None), db') ∧
    GetItem oldName db' = ((Item_zero, Some ErrRecordNotFound), db') ∧
    (∀ other,
       Filepath.Split other ≠ Filepath.Split oldName →
       Filepath.Split other ≠ Filepath.Split newName →
       (GetItem other db').1 = (GetItem other db).1) ∧
    S (length (rows db')) = length (rows db).
Proof.
  intros Hf Hu Hr1 Hk1 Hr2 Hk2 Hne.
  eexists. split; [exact (RenameItem_conflict_no_fault _ _ _ r1 r2 Hf Hu Hr1 Hk1 Hr2 Hk2 Hne)|].
  destruct (Filepath.Split oldName) as [od on] eqn:Ho.
  destruct (Filepath.Split newName) as [nd nn] eqn:Hn. simpl.
  apply unique_index_true in Hu.
  assert (∀ r, r ∈ filter (λ r, where_key nd nn r = false) (rows db) →
            key r ≠ (nd, nn)) as Hfree.
  { intros r [Hr _]%list_elem_of_filter. by apply where_key_false. }
  split; [|split; [|split]].
  - rewrite GetItem_where_key by done. rewrite Hn. simpl.
    rewrite find_new_after_rename by done.
    rewrite find_filter_other
      by (intros r Hr; eapply where_key_other; [|exact Hr]; congruence).
    rewrite (find_unique od on _ r1) by done. simpl.
    by rewrite assign_rename.
  - rewrite GetItem_where_key by done. rewrite Ho. simpl.
    by rewrite find_old_after_rename.
  - intros other Ho' Hn'. rewrite !GetItem_where_key by done.
    destruct (Filepath.Split other) as [d n]. simpl.
    rewrite find_update_where_other.
    + rewrite find_filter_other; [done|].
      intros r Hr. eapply where_key_other; [|exact Hr]. congruence.
    + intros r0 Hr0. split.
      * by apply (where_key_other od on d n r0).
      * apply where_key_false. by rewrite key_assign_rename.
  - simpl. unfold update_where. rewrite length_fmap.
    pose proof (filter_key_unique _ _ Hu Hr2) as Hone.
    clear -Hone Hk2. induction (rows db) as [|x l IH]; [done|].
    rewrite Hk2 in *.
    destruct (decide (key x = (nd, nn))) as [Hx|Hx].
    + rewrite filter_cons_True in Hone by done.
      rewrite filter_cons_False
        by (apply not_false_iff_true; by apply where_key_true).
      injection Hone as _ Hnone. simpl. f_equal.
      rewrite filter_all; [done|].
      intros y Hy. apply where_key_false. intros Hky.
      assert (y ∈ filter (λ x, key x = (nd, nn)) l) as Hin
        by (by apply list_elem_of_filter).
      rewrite Hnone in Hin. by apply elem_of_nil in Hin.
    + rewrite filter_cons_False in Hone by done.
      rewrite filter_cons_True by (by apply where_key_false).
      simpl. f_equal. by apply IH.
Qed.

Lemma rename_onto_taken_path_witness :
  ∃ db',
    RenameItem "/a/b.txt" "/a/c.txt" Sample.db3 = (None, db') ∧
    GetItem "/a/c.txt" db' =
      (({| ParentPath := "/a/"; Name := "c.txt"; Type_ := EntryObject;
           Size := 10; State := 0; Sha1 := "f1"; CreatedAt := 1000;
           UpdatedAt := 1000; Info := Sample.json "null" |}, None), db') ∧
    GetItem "/a/b.txt" db' = ((Item_zero, Some ErrRecordNotFound), db') ∧
    (∀ other,
       Filepath.Split other ≠ Filepath.Split "/a/b.txt" →
       Filepath.Split other ≠ Filepath.Split "/a/c.txt" →
       (GetItem other db').1 = (GetItem other Sample.db3).1) ∧
    S (length (rows db')) = length (rows Sample.db3).
Proof.
  apply (rename_onto_taken_path "/a/b.txt" "/a/c.txt" Sample.db3
           Sample.file_b Sample.file_c eq_refl eq_refl).
  - by left.
  - reflexivity.
  - right. by left.
  - reflexivity.
  - done.
Defined.



(** ** The repository: delete, upsert and the scan *)

(** X6.  In a store that does not fail, [DeleteItem] returns [nil] whether
    the path has a row or not; afterwards [GetItem] on the path finds
    nothing, every path with another key reads as before, and when the
    path had no row the store is the one it was. *)
Theorem delete_then_get name db :
  faults db = [] →
  ∃ db',
    DeleteItem name db = (None, db') ∧
    GetItem name db' = ((Item_zero, Some ErrRecordNotFound), db') ∧
    (∀ other,
       Filepath.Split other ≠ Filepath.Split name →
       (GetItem other db').1 = (GetItem other db).1) ∧
    ((∀ r, r ∈ rows db → key r ≠ Filepath.Split name) → db' = db).
Proof.
  intros Hf. eexists. split.
  { unfold DeleteItem. destruct (Filepath.Split name) as [d n] eqn:Hs.
    rewrite (Delete_no_fault _ _ Hf).
    instantiate (1 :=
      with_rows db
        (filter (λ r, where_key (Filepath.Split name).1
                        (Filepath.Split name).2 r = false) (rows db))).
    by rewrite Hs. }
  destruct (Filepath.Split name) as [d n] eqn:Hs. simpl.
  split; [|split].
  - rewrite GetItem_where_key by done. rewrite Hs. simpl.
    by rewrite find_filter_self.
  - intros other Ho. rewrite !GetItem_where_key by done.
    destruct (Filepath.Split other) as [d' n']. simpl.
    rewrite find_filter_other; [done|].
    intros r Hr. by apply (where_key_other d' n' d n r).
  - intros Hfree. rewrite filter_all.
    + by destruct db.
    + intros r Hr. apply where_key_false. by apply Hfree.
Qed.

Lemma delete_then_get_witness :
  ∃ db',
    DeleteItem "/a/b.txt" Sample.db3 = (None, db') ∧
    GetItem "/a/b.txt" db' = ((Item_zero, Some ErrRecordNotFound), db') ∧
    (∀ other,
       Filepath.Split other ≠ Filepath.Split "/a/b.txt" →
       (GetItem other db').1 = (GetItem other Sample.db3).1) ∧
    ((∀ r, r ∈ rows Sample.db3 → key r ≠ Filepath.Split "/a/b.txt") →
     db' = Sample.db3).
Proof. apply (delete_then_get "/a/b.txt" Sample.db3 eq_refl). Defined.

(** X7.  A successful [UpsertItem] touches the entry's key only: a path
    that splits into another key reads after the call as before it, and the
    table grows by one row when the key had none and keeps its size when
    it had one. *)
Theorem upsert_touches_its_key_only
    (Unmarshal : list byte → Info.t + string) (now curTime : Z)
    (item : Item) (db db' : DB) :
  faults db = [] →
  UpsertItem Unmarshal now curTime item db = (None, db') →
  (∀ other,
     Filepath.Split other ≠ key item →
     (GetItem other db').1 = (GetItem other db).1) ∧
  length (rows db') =
    if existsb (where_key (ParentPath item) (Name item)) (rows db)
    then length (rows db)
    else S (length (rows db)).
Proof.
  intros Hf Hup.
  assert (faults db' = []) as Hf'.
  { revert Hup. unfold UpsertItem, CreateOnConflict.
    destruct (decodeInfo Unmarshal item); [|done].
    rewrite (next_fault_nil _ Hf).
    destruct (negb _); [done|]. destruct (existsb _ _).
    - destruct (unique_index _); [|done]. by intros [= <-].
    - by intros [= <-]. }
  apply UpsertItem_inv in Hup as (info & _ & Hrows).
  split.
  - intros other Ho. rewrite !GetItem_where_key by done. rewrite Hrows.
    destruct (Filepath.Split other) as [d n]. simpl.
    destruct (existsb _ (rows db)) eqn:Hhit.
    + rewrite find_update_where_other; [done|].
      intros r Hr. split.
      * by apply (where_key_other (ParentPath item) (Name item) d n r).
      * apply where_key_true in Hr. apply where_key_false.
        rewrite key_assign_no_key_columns by reflexivity. unfold key in *. congruence.
    + rewrite find_app_split.
      destruct (List.find (where_key d n) (rows db)); [done|]. simpl.
      assert (where_key d n (created curTime item) = false) as ->; [|done].
      apply where_key_false. unfold key in *. simpl. congruence.
  - rewrite Hrows. destruct (existsb _ _).
    + unfold update_where. by rewrite length_fmap.
    + rewrite length_app. simpl. lia.
Qed.

Lemma upsert_touches_its_key_only_witness :
  (∀ other,
     Filepath.Split other ≠ key Sample.file_b_again →
     (GetItem other
        (UpsertItem Sample.Unmarshal 2000 2000 Sample.file_b_again
           Sample.db3).2).1 =
     (GetItem other Sample.db3).1) ∧
  length
    (rows (UpsertItem Sample.Unmarshal 2000 2000 Sample.file_b_again
             Sample.db3).2) = 3%nat.
Proof.
  assert (UpsertItem Sample.Unmarshal 2000 2000 Sample.file_b_again
            Sample.db3 =
          (None,
           (UpsertItem Sample.Unmarshal 2000 2000 Sample.file_b_again
              Sample.db3).2)) as H by (vm_compute; reflexivity).
  destruct (upsert_touches_its_key_only Sample.Unmarshal 2000 2000
              Sample.file_b_again Sample.db3 _ eq_refl H) as [H1 H2].
  split; [exact H1 | exact H2].
Defined.

(** X8.  The last upsert wins.  When the key has a row, upserting an entry
    and then another entry with the same key leaves the store that
    upserting the second entry alone leaves: nothing the first call wrote
    survives.  With the same entry and the same clock reading both times,
    the second call changes nothing. *)
Theorem last_upsert_wins
    (Unmarshal : list byte → Info.t + string)
    (now1 curTime1 : Z) (item1 : Item) (now2 curTime2 : Z) (item2 : Item)
    (db db1 db2 : DB) :
  faults db = [] →
  unique_index (rows db) = true →
  key item1 = key item2 →
  existsb (where_key (ParentPath item2) (Name item2)) (rows db) = true →
  UpsertItem Unmarshal now1 curTime1 item1 db = (None, db1) →
  UpsertItem Unmarshal now2 curTime2 item2 db1 = (None, db2) →
  UpsertItem Unmarshal now2 curTime2 item2 db = (None, db2) ∧
  (item1 = item2 → now1 = now2 → db2 = db1).
Proof.
  intros Hf Hu [= Hp Hn] Hhit H1 H2.
  pose proof (UpsertItem_unique _ _ _ _ _ _ _ H1 Hu) as Hu1.
  pose proof H1 as (info1 & Hd1 & _)%UpsertItem_inv.
  pose proof H2 as (info2 & Hd2 & _)%UpsertItem_inv.
  rewrite (UpsertItem_no_fault _ _ _ _ _ info1 Hf Hu Hd1) in H1.
  rewrite Hp, Hn, Hhit in H1. injection H1 as <-.
  rewrite (UpsertItem_no_fault _ _ _ _ _ info2) in H2 by done.
  simpl in H2.
  rewrite existsb_update_where_key, Hhit in H2 by reflexivity.
  rewrite update_where_upsert_twice in H2. injection H2 as <-.
  split.
  - by rewrite (UpsertItem_no_fault _ _ _ _ _ info2 Hf Hu Hd2), Hhit.
  - intros -> ->. rewrite Hd1 in Hd2. by injection Hd2 as ->.
Qed.

Lemma last_upsert_wins_witness :
  UpsertItem Sample.Unmarshal 3000 3000 Sample.file_b_again Sample.db3 =
    (None,
     (UpsertItem Sample.Unmarshal 3000 3000 Sample.file_b_again
        (UpsertItem Sample.Unmarshal 2000 2000 Sample.file_b_first
           Sample.db3).2).2).
Proof.
  apply (last_upsert_wins Sample.Unmarshal 2000 2000 Sample.file_b_first
           3000 3000 Sample.file_b_again Sample.db3
           (UpsertItem Sample.Unmarshal 2000 2000 Sample.file_b_first
              Sample.db3).2);
    vm_compute; reflexivity.
Defined.

(** X9.  [GetAllItem] in a store that does not fail returns the whole
    table exactly when the table has fewer than 1000 rows.  From 1000 rows
    on it returns the first 1000 rows of the scan together with
    [ErrPrimaryKeyRequired]: the second batch needs a primary key, and
    [Item] has none. *)
Theorem getall_stops_at_a_full_batch
    (scan_order : list Item → list Item) (db : DB) :
  (∀ l, scan_order l ≡ₚ l) →
  faults db = [] →
  GetAllItem scan_order db =
    if bool_decide (length (rows db) < 1000)%nat
    then ((scan_order (rows db), None), db)
    else ((take 1000 (scan_order (rows db)), Some ErrPrimaryKeyRequired),
          db).
Proof.
  intros Hperm Hf.
  pose proof (Permutation_length (Hperm (rows db))) as Hlen.
  case_bool_decide as Hlt.
  - unfold GetAllItem, FindInBatches, Find.
    rewrite (next_fault_nil _ Hf).
    rewrite take_ge by lia.
    case_bool_decide as H0.
    + rewrite bool_decide_eq_true_2 by lia.
      by rewrite (nil_length_inv _ H0).
    + by rewrite bool_decide_eq_true_2 by lia.
  - apply GetAllItem_full_batch; [done | lia].
Qed.

Lemma getall_stops_at_a_full_batch_witness :
  GetAllItem Sample.scan_order (Cases.table_of 1000) =
    ((take 1000 (Sample.scan_order (rows (Cases.table_of 1000))),
      Some ErrPrimaryKeyRequired), Cases.table_of 1000) ∧
  GetAllItem Sample.scan_order (Cases.table_of 999) =
    ((Sample.scan_order (rows (Cases.table_of 999)), None),
     Cases.table_of 999).
Proof.
  split.
  - rewrite (getall_stops_at_a_full_batch Sample.scan_order
               (Cases.table_of 1000) (λ l, reflexivity l) eq_refl).
    rewrite bool_decide_eq_false_2; [done|].
    change (rows (Cases.table_of 1000))
      with (Cases.numbered <$> seq 0 1000).
    rewrite length_fmap, length_seq. lia.
  - rewrite (getall_stops_at_a_full_batch Sample.scan_order
               (Cases.table_of 999) (λ l, reflexivity l) eq_refl).
    rewrite bool_decide_eq_true_2; [done|].
    change (rows (Cases.table_of 999))
      with (Cases.numbered <$> seq 0 999).
    rewrite length_fmap, length_seq. lia.
Defined.

(** ** The repository: modify *)



(** X11.  [ModifyItem] has no fallback: moving the row at a path onto a key
    that another row holds fails with the store's message for the unique
    index, the message [RenameItem] looks for, and leaves the store as it
    was. *)
Theorem modify_onto_taken_key_is_refused name d n db r1 r2 :
  faults db = [] →
  r1 ∈ rows db → key r1 = Filepath.Split name →
  r2 ∈ rows db → key r2 = (d, n) →
  Filepath.Split name ≠ (d, n) →
  ModifyItem name (rename_assignments d n) db = (Some ErrUniqueIndex, db) ∧
  Strings.Contains ErrUniqueIndex ErrorOfUniqueKeyExist = true.
Proof.
  intros Hf Hr1 Hk1 Hr2 Hk2 Hne. split; [|reflexivity].
  unfold ModifyItem. destruct (Filepath.Split name) as [od on].
  rewrite (Updates_rename_no_fault _ _ _ _ Hf).
  assert (unique_index
            (update_where (where_key od on) (rename_assignments d n)
               (rows db)) = false) as ->; [|done].
  apply not_true_iff_false. intros Hu%unique_index_true.
  by apply (conflict_after_rename od on d n _ r1 r2) in Hu.
Qed.

Lemma modify_onto_taken_key_is_refused_witness :
  ModifyItem "/a/b.txt" (rename_assignments "/a/" "c.txt") Sample.db3 =
    (Some ErrUniqueIndex, Sample.db3) ∧
  Strings.Contains ErrUniqueIndex ErrorOfUniqueKeyExist = true.
Proof.
  apply (modify_onto_taken_key_is_refused "/a/b.txt" "/a/" "c.txt"
           Sample.db3 Sample.file_b Sample.file_c eq_refl).
  - by left.
  - reflexivity.
  - right. by left.
  - reflexivity.
  - done.
Defined.

(** ** Paths and the keys of rows *)

(** X12.  [filepath.Split] is the only cut of a path into a part that is
    empty or ends with the separator and a part without separator: a pair
    is the split of a path exactly when its parts are such and make up the
    path. *)
Theorem split_is_the_only_cut (path d n : string) :
  Filepath.Split path = (d, n) ↔
  path = d +:+ n ∧
  Filepath.ends_with_separator d = true ∧
  Filepath.no_separator n = true.
Proof.
  split.
  - intros Hs.
    pose proof (FilepathFacts.Split_app path) as H1.
    pose proof (FilepathFacts.Split_dir_ends_with_separator path) as H2.
    pose proof (FilepathFacts.Split_name_no_separator path) as H3.
    rewrite Hs in H1, H2, H3. by simpl in *.
  - intros (-> & Hd & Hn). by apply FilepathFacts.Split_unique.
Qed.

(** X13.  A row is found again by its joined key: on a table with unique
    keys in a store that does not fail, for a row whose parent path is
    empty or ends with the separator and whose name holds no separator,
    [GetItem] on parent path followed by name returns that row. *)
Theorem get_item_by_joined_key db r :
  faults db = [] →
  unique_index (rows db) = true →
  r ∈ rows db →
  Filepath.ends_with_separator (ParentPath r) = true →
  Filepath.no_separator (Name r) = true →
  GetItem (ParentPath r +:+ Name r) db = ((r, None), db).
Proof.
  intros Hf Hu Hr Hd Hn. rewrite GetItem_where_key by done.
  rewrite (FilepathFacts.Split_unique _ _ Hd Hn). simpl.
  apply unique_index_true in Hu.
  by rewrite (find_unique _ _ _ r Hu Hr).
Qed.

Lemma get_item_by_joined_key_witness :
  GetItem ("/a/" +:+ "b.txt") Sample.db3 = ((Sample.file_b, None), Sample.db3).
Proof.
  apply (get_item_by_joined_key Sample.db3 Sample.file_b eq_refl eq_refl).
  - by left.
  - reflexivity.
  - reflexivity.
Defined.

(** X14.  [UpsertItem] stores the entry's [ParentPath] and [Name] as given,
    while every other operation takes a path and splits it.  So a row whose
    parent path is not empty and does not end with the separator, or whose
    name holds a separator, is out of their reach: no [GetItem] returns it,
    no successful [DeleteItem] removes it, no successful [ModifyItem]
    changes it, and no [RenameItem] moves or removes it. *)
Theorem rows_with_a_malformed_key_are_out_of_reach (r : Item) :
  Filepath.ends_with_separator (ParentPath r)
  && Filepath.no_separator (Name r) = false →
  (∀ name db db', GetItem name db ≠ ((r, None), db')) ∧
  (∀ name db db',
     DeleteItem name db = (None, db') → r ∈ rows db → r ∈ rows db') ∧
  (∀ name infoMap db db' (i : nat),
     ModifyItem name infoMap db = (None, db') →
     rows db !! i = Some r → rows db' !! i = Some r) ∧
  (∀ oldName newName db err db',
     RenameItem oldName newName db = (err, db') →
     r ∈ rows db → r ∈ rows db').
Proof.
  intros Hbad.
  assert (∀ name, key r ≠ Filepath.Split name) as Hno.
  { intros name Hk. apply not_true_iff_false in Hbad. apply Hbad.
    pose proof (FilepathFacts.Split_dir_ends_with_separator name) as H1.
    pose proof (FilepathFacts.Split_name_no_separator name) as H2.
    rewrite <- Hk in H1, H2. simpl in H1, H2. by rewrite H1, H2. }
  split; [|split; [|split]].
  - intros name db db' [_ Hk]%GetItem_found. by apply (Hno name).
  - intros name db db' Hd Hr. apply (DeleteItem_elem _ _ _ r Hd).
    split; [done | apply Hno].
  - intros name m db db' i Hm Hi.
    rewrite (ModifyItem_lookup _ _ _ _ _ _ Hm Hi).
    by rewrite bool_decide_eq_false_2 by apply Hno.
  - intros o n db err db' Hren Hr.
    apply RenameItem_rows in Hren.
    apply (renamed_other _ _ _ _ _ _ r Hren); [| |done].
    + rewrite <- surjective_pairing. apply Hno.
    + rewrite <- surjective_pairing. apply Hno.
Qed.

Lemma rows_with_a_malformed_key_are_out_of_reach_witness :
  (∀ name db db', GetItem name db ≠ ((Cases.loose_b, None), db')) ∧
  (∀ name db db',
     DeleteItem name db = (None, db') →
     Cases.loose_b ∈ rows db → Cases.loose_b ∈ rows db') ∧
  (∀ name infoMap db db' (i : nat),
     ModifyItem name infoMap db = (None, db') →
     rows db !! i = Some Cases.loose_b →
     rows db' !! i = Some Cases.loose_b) ∧
  (∀ oldName newName db err db',
     RenameItem oldName newName db = (err, db') →
     Cases.loose_b ∈ rows db → Cases.loose_b ∈ rows db').
Proof.
  apply (rows_with_a_malformed_key_are_out_of_reach Cases.loose_b).
  reflexivity.
Defined.

(** ** Names of partial files, again *)

(** X15.  A name that [IsPartialFile] accepts has at least 17 bytes, none
    of them a newline, and ends with [.partial]; it is still accepted with
    any text without newline put before it. *)
Theorem partial_file_names (name : string) :
  Hybridzfs.IsPartialFile name = true →
  (17 ≤ String.length name)%nat ∧
  Regexp.all_bytes Regexp.not_newline name = true ∧
  (∃ s, name = s +:+ ".partial") ∧
  ∀ p, Regexp.all_bytes Regexp.not_newline p = true →
       Hybridzfs.IsPartialFile (p +:+ name) = true.
Proof.
  intros (prefix & h & -> & Hp & Hlen & Hh)%RegexpFacts.IsPartialFile_spec.
  split; [|split; [|split]].
  - rewrite !StringFacts.length_app, Hlen. simpl. lia.
  - rewrite !all_bytes_app, Hp.
    by rewrite (all_bytes_weaken _ _ _ hex_lower_not_newline Hh).
  - exists (prefix +:+ "." +:+ h). by rewrite !string_app_assoc.
  - intros p Hpn. apply RegexpFacts.IsPartialFile_spec.
    exists (p +:+ prefix), h. split; [by rewrite string_app_assoc|].
    by rewrite all_bytes_app, Hpn, Hp.
Qed.

Lemma partial_file_names_witness :
  (17 ≤ String.length "x.efe454dd.partial")%nat ∧
  Regexp.all_bytes Regexp.not_newline "x.efe454dd.partial" = true ∧
  (∃ s, "x.efe454dd.partial" = s +:+ ".partial") ∧
  ∀ p, Regexp.all_bytes Regexp.not_newline p = true →
       Hybridzfs.IsPartialFile (p +:+ "x.efe454dd.partial") = true.
Proof. apply (partial_file_names "x.efe454dd.partial"). reflexivity. Defined.

(** ** The schema and the delete of all rows *)

(** X16.  [createTable] can be run again.  In a store that does not fail,
    on a backing file whose table, if there is one without index, has
    unique keys: the call returns [nil], the table and its index exist
    afterwards, the rows of an existing table are kept (a new table is
    empty), and a second call returns [nil] too and changes nothing: the
    error of creating the index again is the one the function takes for
    success. *)
Theorem createTable_settles (b : OriginCache.Backing) :
  faults (OriginCache.store b) = [] →
  (OriginCache.has_table b = true → OriginCache.has_index b = false →
   unique_index (rows (OriginCache.store b)) = true) →
  ∃ b1,
    OriginCache.createTable b = (None, b1) ∧
    OriginCache.has_table b1 = true ∧
    OriginCache.has_index b1 = true ∧
    rows (OriginCache.store b1) =
      (if OriginCache.has_table b then rows (OriginCache.store b) else []) ∧
    faults (OriginCache.store b1) = [] ∧
    OriginCache.createTable b1 = (None, b1).
Proof.
  destruct b as [t i [l fs]]. simpl. intros -> Hu.
  unfold OriginCache.createTable, OriginCache.ExecCreateTable,
    OriginCache.ExecCreateIndex.
  destruct t; simpl.
  - destruct i; simpl.
    + eexists. split; [reflexivity|]. simpl. done.
    + rewrite (Hu eq_refl eq_refl). eexists. split; [reflexivity|].
      simpl. done.
  - eexists. split; [reflexivity|]. simpl. done.
Qed.

Lemma createTable_settles_witness :
  ∃ b1,
    OriginCache.createTable Cases.unindexed_file = (None, b1) ∧
    OriginCache.has_table b1 = true ∧
    OriginCache.has_index b1 = true ∧
    rows (OriginCache.store b1) = rows Sample.db3 ∧
    faults (OriginCache.store b1) = [] ∧
    OriginCache.createTable b1 = (None, b1).
Proof.
  apply (createTable_settles Cases.unindexed_file eq_refl).
  reflexivity.
Defined.

(** X17.  The errors of the index statement in [createTable].  On an
    existing table without index in which two rows share a key, the call
    returns the store's message for the unique index, which does not
    contain [already exists], and leaves the backing file as it was.  Any
    failure of that statement whose message does contain [already exists]
    is returned as [nil], although no index was made. *)
Theorem createTable_refuses_doubled_keys (b : OriginCache.Backing) :
  faults (OriginCache.store b) = [] →
  OriginCache.has_table b = true →
  OriginCache.has_index b = false →
  unique_index (rows (OriginCache.store b)) = false →
  OriginCache.createTable b = (Some ErrUniqueIndex, b) ∧
  ∀ e fs,
    Strings.Contains e ErrorOfAlreadyExist = true →
    OriginCache.createTable
      {| OriginCache.has_table := true;
         OriginCache.has_index := false;
         OriginCache.store :=
           {| rows := rows (OriginCache.store b);
              faults := None :: Some e :: fs |} |} =
    (None,
     {| OriginCache.has_table := true;
        OriginCache.has_index := false;
        OriginCache.store :=
          {| rows := rows (OriginCache.store b); faults := fs |} |}).
Proof.
  destruct b as [t i [l fs]]. simpl. intros -> -> -> Hu. split.
  - unfold OriginCache.createTable, OriginCache.ExecCreateTable,
      OriginCache.ExecCreateIndex. simpl. by rewrite Hu.
  - intros e fs' He.
    unfold OriginCache.createTable, OriginCache.ExecCreateTable,
      OriginCache.ExecCreateIndex. simpl. by rewrite He.
Qed.

Lemma createTable_refuses_doubled_keys_witness :
  OriginCache.createTable Cases.doubled_file =
    (Some ErrUniqueIndex, Cases.doubled_file) ∧
  ∀ e fs,
    Strings.Contains e ErrorOfAlreadyExist = true →
    OriginCache.createTable
      {| OriginCache.has_table := true;
         OriginCache.has_index := false;
         OriginCache.store :=
           {| rows := [Sample.file_b; Sample.file_b_again];
              faults := None :: Some e :: fs |} |} =
    (None,
     {| OriginCache.has_table := true;
        OriginCache.has_index := false;
        OriginCache.store :=
          {| rows := [Sample.file_b; Sample.file_b_again];
             faults := fs |} |}).
Proof.
  apply (createTable_refuses_doubled_keys Cases.doubled_file);
    reflexivity.
Defined.

(** X18.  [DeleteAllItem] deletes nothing.  The statement has no condition
    and [Item] no primary key, so GORM refuses it with
    [ErrMissingWhereClause] before it reaches the store: the call returns
    that error on every store and leaves it as it was, and [GetAllItem] and
    [GetItem] read after it what they read before.  With
    [AllowGlobalUpdate] set, the same statement would empty the table. *)
Theorem delete_all_deletes_nothing (db : DB) :
  OriginCache.DeleteAllItem db =
    (Some OriginCache.ErrMissingWhereClause, db) ∧
  (∀ scan_order,
     GetAllItem scan_order (OriginCache.DeleteAllItem db).2 =
     GetAllItem scan_order db) ∧
  (∀ name,
     GetItem name (OriginCache.DeleteAllItem db).2 = GetItem name db) ∧
  (OriginCache.DeleteWhere true [] {| rows := rows db; faults := [] |}).2 =
    {| rows := []; faults := [] |}.
Proof.
  split; [reflexivity|]. split; [reflexivity|]. split; [reflexivity|].
  unfold OriginCache.DeleteWhere. rewrite Delete_no_fault by done.
  simpl. unfold with_rows. simpl. f_equal.
  by apply filter_none.
Qed.

(** ** The trace *)



(** ** The file system: kinds of files and the root *)

(** X20.  [isRegular] is [IsRegular] unless links are translated, and then
    it accepts one more kind of file: a mode is regular for the file system
    exactly when it has no type bit, or when [TranslateSymlinks] is set and
    its only type bit is the one of a symbolic link.  A mode with the bit
    of a directory (31), a device (26), a named pipe (25), a socket (24),
    a character device (21) or an irregular file (19) is refused either
    way. *)
Theorem isRegular_accepts_links_only_when_told
    (opt : Hvfs.Options) (mode : Z) :
  Hvfs.isRegular opt mode =
    Hvfs.IsRegular mode
    || Hvfs.TranslateSymlinks opt
       && (Z.land mode Hvfs.ModeType =? Hvfs.ModeSymlink) ∧
  (∀ bit, bit ∈ [31; 26; 25; 24; 21; 19] →
          Z.testbit mode bit = true → Hvfs.isRegular opt mode = false).
Proof.
  assert (Hvfs.isRegular opt mode =
          Hvfs.IsRegular mode
          || Hvfs.TranslateSymlinks opt
             && (Z.land mode Hvfs.ModeType =? Hvfs.ModeSymlink)) as Hchar.
  { unfold Hvfs.isRegular, Hvfs.IsRegular.
    destruct (Hvfs.TranslateSymlinks opt); simpl.
    - apply HvfsFacts.ldiff_ModeSymlink.
    - by rewrite orb_false_r. }
  split; [exact Hchar|].
  intros bit Hbit Hset. rewrite Hchar. unfold Hvfs.IsRegular.
  assert (Z.testbit (Z.land mode Hvfs.ModeType) bit = true) as Hland.
  { rewrite Z.land_spec, Hset. simpl.
    set_unfold in Hbit.
    destruct Hbit as [->|[->|[->|[->|[->|[->|[]]]]]]]; reflexivity. }
  assert (bit ≠ 27) as Hne.
  { set_unfold in Hbit.
    destruct Hbit as [->|[->|[->|[->|[->|[->|[]]]]]]]; done. }
  apply orb_false_iff. split.
  - apply Z.eqb_neq. intros H0. by rewrite H0, Z.bits_0 in Hland.
  - apply andb_false_iff. right. apply Z.eqb_neq. intros HS.
    rewrite HS, HvfsFacts.ModeSymlink_bits in Hland.
    by apply Z.eqb_eq in Hland.
Qed.

Section NewFsFacts.

Import Hvfs.

Context {Mapper LocalFs : Type}.
Variable GOOS : string.
Variable XATTR_SUPPORTED : bool.
Variable configstruct_Set : Mapper → Options + string.
Variable local_NewFs :
  string → string → Mapper → option LocalFs * option FsError.
Variable CleanRootPath : string → bool → Z → string.
Variable Dir : string → string.
Variable Lstat : string → StatResult.
Variable Stat : string → StatResult.

Local Abbreviation NewFs_here :=
  (NewFs Mapper LocalFs GOOS XATTR_SUPPORTED configstruct_Set local_NewFs
     CleanRootPath Dir Lstat Stat).

(** X21.  What [NewFs] can return.  It never returns neither file system
    nor error.  It returns no file system only for an error of reading the
    options, for [--links] together with [--copy-links], for an error of
    [local.NewFs] (whatever file system came with it), or for a link named
    without the link suffix.  A file system it returns comes with no error
    or with [fs.ErrorIsFile]; it carries the name given, the options read,
    the file system [local.NewFs] built without error, the unset device
    number, and as root the cleaned root, or the parent of it when the
    error is [fs.ErrorIsFile]. *)
Theorem NewFs_outcomes (name_ root_ : string) (m : Mapper) :
  match NewFs_here name_ root_ m with
  | (None, None) => False
  | (None, Some e) =>
      (∃ msg, configstruct_Set m = inr msg ∧ e = OtherError msg) ∨
      (∃ o, configstruct_Set m = inl o ∧
            TranslateSymlinks o = true ∧ FollowSymlinks o = true ∧
            e = errLinksAndCopyLinks) ∨
      (∃ lf, local_NewFs name_ root_ m = (lf, Some e)) ∨
      (∃ o, configstruct_Set m = inl o ∧ TranslateSymlinks o = true ∧
            HasSuffix (CleanRootPath root_ (NoUNC o) (Enc o)) linkSuffix
            = false ∧
            e = errLinksNeedsSuffix)
  | (Some f, err) =>
      (err = None ∨ err = Some ErrorIsFile) ∧
      name f = name_ ∧
      dev f = devUnset ∧
      configstruct_Set m = inl (opt f) ∧
      TranslateSymlinks (opt f) && FollowSymlinks (opt f) = false ∧
      lstat_follows f = FollowSymlinks (opt f) ∧
      local_NewFs name_ root_ m = (localFs f, None) ∧
      root f =
        match err with
        | Some _ =>
            Dir (CleanRootPath root_ (NoUNC (opt f)) (Enc (opt f)))
        | None => CleanRootPath root_ (NoUNC (opt f)) (Enc (opt f))
        end
  end.
Proof.
  unfold NewFs.
  destruct (configstruct_Set m) as [o|msg] eqn:Hset;
    [|left; by exists msg].
  destruct (TranslateSymlinks o && FollowSymlinks o) eqn:Hboth.
  { apply andb_true_iff in Hboth as [? ?]. right. left. by exists o. }
  destruct (local_NewFs name_ root_ m) as [lf [e|]] eqn:Hloc.
  { right. right. left. by exists lf. }
  set (fi := (if FollowSymlinks o then Stat else Lstat)
               (CleanRootPath root_ (NoUNC o) (Enc o))).
  assert (match fi with
          | StatOk mode => readDevice mode (OneFileSystem o)
          | _ => devUnset
          end = devUnset) as Hdev by (by destruct fi).
  rewrite Hdev.
  destruct (if _ && _ && _ then _ else fi) as [mode| |msg]; simpl;
    try by repeat split; auto.
  destruct (isRegular o mode); simpl; [|by repeat split; auto].
  destruct (negb _ && _ && _) eqn:Hneed; simpl;
    [|by repeat split; auto].
  apply andb_true_iff in Hneed as [[Hs Ht]%andb_true_iff _].
  apply negb_true_iff in Hs.
  right. right. right. by exists o.
Qed.


End NewFsFacts.


(** ** Lists of filters *)

Module FilterFacts.

Lemma Scopes_app (fl1 fl2 : list (Statement → Statement)) (db : Statement) :
  Scopes (fl1 ++ fl2) db = Scopes fl2 (Scopes fl1 db).
Proof. unfold Scopes. apply fold_left_app. Qed.

Lemma Scopes_filters (fl : list (bool * string * string)) (db : Statement) :
  Scopes (Filters.filter_of <$> fl) db =
  {| table := table db; conds := conds db ++ (Filters.cond_of <$> fl) |}.
Proof.
  revert db. induction fl as [|[[p v] op] fl IH]; intros db.
  - simpl. rewrite app_nil_r. by destruct db.
  - rewrite fmap_cons. change (Scopes (?f :: ?l) db) with (Scopes l (f db)).
    rewrite IH. destruct p; simpl; by rewrite <- app_assoc.
Qed.

End FilterFacts.

(** X23.  [basicFilter] with any list of filters built by [FilterName] and
    [FilterParentPath] keeps the table and adds to the statement, after
    the conditions already there and in the order of the list, one
    condition [name <operator> ?] per filter, bound to the filter's value.
    Every condition it adds is on the column [name]: a
    [FilterParentPath] never restricts [parent_path]. *)
Theorem basicFilter_only_names_the_name_column
    (fl : list (bool * string * string)) (db : Statement) :
  basicFilter db (Filters.filter_of <$> fl) =
    {| table := table db;
       conds := conds db ++ (Filters.cond_of <$> fl) |} ∧
  (∀ c, c ∈ conds (basicFilter db (Filters.filter_of <$> fl)) →
        c ∈ conds db ∨ String.prefix "name " c.1 = true).
Proof.
  assert (basicFilter db (Filters.filter_of <$> fl) =
          {| table := table db;
             conds := conds db ++ (Filters.cond_of <$> fl) |}) as Hb.
  { unfold basicFilter. case_bool_decide as Hlen.
    - rewrite length_fmap in Hlen. apply nil_length_inv in Hlen as ->.
      simpl. rewrite app_nil_r. by destruct db.
    - apply FilterFacts.Scopes_filters. }
  split; [exact Hb|].
  intros c. rewrite Hb. simpl.
  intros [Hc|Hc]%elem_of_app; [by left|]. right.
  apply list_elem_of_fmap in Hc as ([[p v] op] & -> & _). simpl.
  rewrite StringFacts.app_empty_l. by destruct op.
Qed.
